(** * Passjoin: a partition-based index for approximate string matching

    A shallow embedding of [passjoin/passjoin.py] and the verification of
    its specification.  Python integers are [Z]; a word is a list of
    characters over an arbitrary countable alphabet; the nested
    dictionaries of the index are [gmap]s and the candidate sets are
    [gset]s; exceptions are the [Raise] results of an error monad, and the
    index, which the code mutates while building it, is the state of a
    state monad. *)

From stdpp Require Import gmap list strings.

Local Open Scope Z_scope.

(** ** Exceptions and results *)

(** The exceptions that can travel through the code: the one raised by
    [//] on a zero divisor, and whatever the distance function raises
    (identified by a tag). *)
Inductive exn : Type :=
  | ZeroDivisionError
  | RaisedError (tag : N).

Inductive result (A : Type) : Type :=
  | Ok (a : A)
  | Raise (e : exn).
Arguments Ok {A} a.
Arguments Raise {A} e.

Definition is_Ok {A} (r : result A) : Prop :=
  match r with Ok _ => True | Raise _ => False end.

(** ** Python primitives *)

(** [a // b]: floor division, raising on a zero divisor. *)
Definition floordiv (a b : Z) : result Z :=
  if decide (b = 0) then Raise ZeroDivisionError else Ok (a `div` b).

(** [range(lo, hi)]: empty when [hi <= lo]. *)
Definition range (lo hi : Z) : list Z := seqZ lo (hi - lo).

(** [len(word)]. *)
Definition len {A} (word : list A) : Z := Z.of_nat (length word).

(** One bound of a slice: a negative bound counts from the end, and the
    result is clipped to [0 .. len]. *)
Definition slice_bound (n i : Z) : Z :=
  if decide (i < 0) then Z.max (i + n) 0 else Z.min i n.

(** [word[a:b]]. *)
Definition slice {A} (word : list A) (a b : Z) : list A :=
  let lo := slice_bound (len word) a in
  let hi := slice_bound (len word) b in
  take (Z.to_nat (hi - lo)) (drop (Z.to_nat lo) word).

(** [max(a, b, c)] and [min(a, b, c)]. *)
Definition max3 (a b c : Z) : Z := Z.max (Z.max a b) c.
Definition min3 (a b c : Z) : Z := Z.min (Z.min a b) c.

(** ** The methods that read only [self._max_distance] *)

Section Geometry.
Context {char : Type}.
Abbreviation word := (list char).

(** [self._max_distance] *)
Variable _max_distance : Z.

Definition _candidates_word_length_range (w : word) : list Z :=
  let word_length := len w in
  range (Z.max 0 (word_length - _max_distance))
        (word_length + _max_distance + 1).

Definition _compute_partitions (word_length : Z) : result (list (Z * Z * Z)) :=
  let segments_number := _max_distance + 1 in
  match floordiv word_length segments_number with
  | Raise e => Raise e
  | Ok small_segments_length =>
    let large_segments_length := small_segments_length + 1 in
    let large_segments_number :=
      word_length - small_segments_length * segments_number in
    let small_segments_number := segments_number - large_segments_number in
    let small_partitions :=
      map (fun i => (i, i * small_segments_length, small_segments_length))
          (range 0 small_segments_number) in
    let offset := small_segments_number * small_segments_length in
    let large_partitions :=
      map (fun j => (small_segments_number + j,
                     offset + j * large_segments_length,
                     large_segments_length))
          (range 0 large_segments_number) in
    Ok (small_partitions ++ large_partitions)
  end.

Definition _generate_segments (w : word) : result (list (Z * word)) :=
  match _compute_partitions (len w) with
  | Raise e => Raise e
  | Ok partitions =>
    Ok (map (fun '(i, start, length) => (i, slice w start (start + length)))
            partitions)
  end.

Definition _minimum_start_position
    (length_delta segment_index segment_position : Z) : Z :=
  let start_left := segment_position - segment_index in
  let start_right :=
    segment_position + length_delta - (_max_distance - segment_index) in
  let start_lower := 0 in
  max3 start_left start_right start_lower.

Definition _maximum_start_position
    (length_delta segment_index word_length
     segment_position segment_length : Z) : Z :=
  let end_left := segment_position + segment_index in
  let end_right :=
    segment_position + length_delta + (_max_distance - segment_index) in
  let end_upper := word_length - segment_length in
  min3 end_left end_right end_upper.

Definition _substrings_selection (w : word)
    (candidate_length segment_index segment_position segment_length : Z)
    : list word :=
  let word_length := len w in
  let length_delta := word_length - candidate_length in
  let min_start_position :=
    _minimum_start_position length_delta segment_index segment_position in
  let max_start_position :=
    _maximum_start_position length_delta segment_index word_length
                            segment_position segment_length in
  map (fun position => slice w position (position + segment_length))
      (range min_start_position (max_start_position + 1)).

End Geometry.

(** ** The index as mutable state *)

(** [dict[word_length] -> dict[(segment_index, segment)] -> set(word)] *)
Abbreviation index_of char :=
  (gmap Z (gmap (Z * list char) (gset (list char)))).

(** A computation reads and writes the index and returns a value or
    raises; what was written before an exception stays written. *)
Definition M (S A : Type) : Type := S -> result A * S.

Definition mret {S A} (a : A) : M S A := fun s => (Ok a, s).

Definition mbind {S A B} (m : M S A) (k : A -> M S B) : M S B :=
  fun s =>
    match m s with
    | (Ok a, s') => k a s'
    | (Raise e, s') => (Raise e, s')
    end.

(** A call of a function that touches no state. *)
Definition lift {S A} (r : result A) : M S A := fun s => (r, s).

Notation "x <- m ;; k" := (mbind m (fun x => k))
  (at level 20, m at level 99, k at level 200, only parsing).

(** [for x in xs: body], the local variables that the body updates being
    threaded through as [a]. *)
Fixpoint for_in {S X A} (xs : list X) (body : A -> X -> M S A) (a : A)
    : M S A :=
  match xs with
  | [] => mret a
  | x :: xs' => a' <- body a x ;; for_in xs' body a'
  end.

Section Index.
Context {char : Type} `{Countable char}.
Abbreviation word := (list char).
Abbreviation index := (index_of char).

(** [inverted_index_by_length[length][key].add(word)] on the nested
    [defaultdict]: a missing sub-dictionary and a missing set are created
    on the way. *)
Definition getitem_add (length : Z) (key : Z * word) (w : word)
    : M index () :=
  fun idx =>
    let inverted_index := default ∅ (idx !! length) in
    let candidates := default ∅ (inverted_index !! key) in
    (Ok (), <[length := <[key := candidates ∪ {[w]}]> inverted_index]> idx).

(** [self._inverted_index_by_length.get(candidate_length)]: no entry is
    created on a miss.  The sub-dictionary found is the object stored in
    the index, so it is handed out as its address, the key it is stored
    under. *)
Definition index_get (candidate_length : Z) : M index (option Z) :=
  fun idx =>
    (Ok (match idx !! candidate_length with
         | Some _ => Some candidate_length
         | None => None
         end), idx).

(** [inverted_index.get(key, [])] on the sub-dictionary at address
    [inverted_index], as the list its iteration yields.  Python iterates a
    set in an order that depends on the history of the set; here the
    members come in the order of [elements].  The set that a query returns
    and whether it raises do not depend on that order
    ([verify_all_any_order]); which exception comes out, when the distance
    function fails on several candidates, does, and the theorems on the
    exceptions of a query name it only as one that the distance function
    raised on an examined candidate. *)
Definition candidates_get (inverted_index : Z) (key : Z * word)
    : M index (list word) :=
  fun idx =>
    (Ok (match idx !! inverted_index ≫= (.!! key) with
         | Some candidates => elements candidates
         | None => []
         end), idx).

(** [self._max_distance] and [self._distance_function] *)
Variable _max_distance : Z.
Variable _distance_function : word -> word -> result Z.

Definition build_loop (words : list word) : M index () :=
  for_in words (fun _ w =>
    let length := len w in
    keys <- lift (_generate_segments _max_distance w) ;;
    for_in keys (fun _ key => getitem_add length key w) ()) ().

Definition _build_inverted_index_by_length (words : list word)
    : result index :=
  match build_loop words ∅ with
  | (Ok _, inverted_index_by_length) => Ok inverted_index_by_length
  | (Raise e, _) => Raise e
  end.

Definition get_word_variations_loop (w : word) : M index (gset word) :=
  let distance := _distance_function in
  let max_distance := _max_distance in
  for_in (_candidates_word_length_range _max_distance w)
    (fun variations candidate_length =>
      inverted_index <- index_get candidate_length ;;
      match inverted_index with
      | None => mret variations
      | Some inverted_index =>
        partitions <- lift (_compute_partitions _max_distance candidate_length) ;;
        for_in partitions
          (fun variations '(partition_index, partition_start, partition_length) =>
            for_in (_substrings_selection _max_distance w candidate_length
                      partition_index partition_start partition_length)
              (fun variations substring =>
                candidates <-
                  candidates_get inverted_index (partition_index, substring) ;;
                for_in candidates
                  (fun variations candidate =>
                    d <- lift (distance w candidate) ;;
                    mret (if decide (d <= max_distance)
                          then variations ∪ {[candidate]}
                          else variations))
                  variations)
              variations)
          variations
      end)
    ∅.

End Index.

(** ** The class *)

Record Passjoin (char : Type) `{Countable char} : Type := {
  _max_distance : Z;
  _distance_function : list char -> list char -> result Z;
  _inverted_index_by_length : index_of char
}.
Arguments _max_distance {char _ _} _.
Arguments _distance_function {char _ _} _.
Arguments _inverted_index_by_length {char _ _} _.

Section Class.
Context {char : Type} `{Countable char}.
Abbreviation word := (list char).

Definition __init__ (words : list word) (max_distance : Z)
    (distance_function : word -> word -> result Z)
    : result (Passjoin char) :=
  match _build_inverted_index_by_length max_distance words with
  | Raise e => Raise e
  | Ok inverted_index_by_length =>
    Ok {| _max_distance := max_distance;
          _distance_function := distance_function;
          _inverted_index_by_length := inverted_index_by_length |}
  end.

(** A query runs on the object and leaves it in some state: the result
    and the object after the call. *)
Definition get_word_variations (self : Passjoin char) (w : word)
    : result (gset word) * Passjoin char :=
  let '(r, idx) :=
    get_word_variations_loop (_max_distance self) (_distance_function self) w
                             (_inverted_index_by_length self) in
  (r, {| _max_distance := _max_distance self;
         _distance_function := _distance_function self;
         _inverted_index_by_length := idx |}).

End Class.

(** ** The distance function of the tests *)

Section Levenshtein.
Context {char : Type} `{EqDecision char}.

(** The unit-cost edit distance (insertion, deletion, substitution), by
    its recurrence on the first characters of the two words. *)
Fixpoint levenshtein (a b : list char) : nat :=
  match a with
  | [] => length b
  | x :: a' =>
    (fix inner (b : list char) : nat :=
       match b with
       | [] => length a
       | y :: b' =>
         Nat.min (Nat.min (S (levenshtein a' b)) (S (inner b')))
                 ((if decide (x = y) then 0 else 1) + levenshtein a' b')%nat
       end) b
  end.

(** The edit scripts that turn [a] into [b], with their number of
    insertions, deletions and substitutions. *)
Inductive edit_script : list char -> list char -> nat -> Prop :=
  | edit_done : edit_script [] [] 0
  | edit_delete x a b n :
      edit_script a b n -> edit_script (x :: a) b (S n)
  | edit_insert y a b n :
      edit_script a b n -> edit_script a (y :: b) (S n)
  | edit_substitute x y a b n :
      x <> y -> edit_script a b n -> edit_script (x :: a) (y :: b) (S n)
  | edit_keep x a b n :
      edit_script a b n -> edit_script (x :: a) (x :: b) n.

(** [Levenshtein.distance], which never raises. *)
Definition distance (a b : list char) : result Z :=
  Ok (Z.of_nat (levenshtein a b)).

End Levenshtein.

(** ** Notions used in the statements *)

(** The descriptors tile an interval: the first starts at [start], each
    next one where the previous one ends, none has a negative length, and
    the last ends at [stop]. *)
Fixpoint contiguous (start : Z) (partitions : list (Z * Z * Z)) (stop : Z)
    : Prop :=
  match partitions with
  | [] => start = stop
  | (_, p, l) :: rest => p = start /\ 0 <= l /\ contiguous (p + l) rest stop
  end.

Definition descriptor_index (d : Z * Z * Z) : Z := d.1.1.
Definition descriptor_start (d : Z * Z * Z) : Z := d.1.2.
Definition descriptor_length (d : Z * Z * Z) : Z := d.2.

Definition sumZ (l : list Z) : Z := foldr Z.add 0 l.

(** The candidates that a query for [w] compares with [w], in the order
    of the loops: for each candidate length present in the index, for each
    descriptor, for each probe, the words of the candidate set (these in
    the order of [candidates_get]). *)
Section Examined.
Context {char : Type} `{Countable char}.

Definition candidates_at (idx : index_of char) (L' : Z)
    (key : Z * list char) : list (list char) :=
  match idx !! L' ≫= (.!! key) with
  | Some candidates => elements candidates
  | None => []
  end.

(** The candidate set stored for a length and a key, empty when there is
    none. *)
Definition lookup_set (idx : index_of char) (L' : Z)
    (key : Z * list char) : gset (list char) :=
  default ∅ (idx !! L' ≫= (.!! key)).

Definition examined (T : Z) (idx : index_of char) (w : list char)
    : list (list char) :=
  L' ← _candidates_word_length_range T w;
  match idx !! L' with
  | None => []
  | Some _ =>
    match _compute_partitions T L' with
    | Raise _ => []
    | Ok partitions =>
      d ← partitions;
      substring ← _substrings_selection T w L' d.1.1 d.1.2 d.2;
      candidates_at idx L' (d.1.1, substring)
    end
  end.

(** The lookups [inverted_index.get((partition_index, substring), [])]
    that a query for [w] makes, in order: the candidate length whose
    sub-dictionary is read, and the key. *)
Definition probes (T : Z) (idx : index_of char) (w : list char)
    : list (Z * (Z * list char)) :=
  L' ← _candidates_word_length_range T w;
  match idx !! L' with
  | None => []
  | Some _ =>
    match _compute_partitions T L' with
    | Raise _ => []
    | Ok partitions =>
      d ← partitions;
      substring ← _substrings_selection T w L' d.1.1 d.1.2 d.2;
      [(L', (d.1.1, substring))]
    end
  end.

(** No entry of the index is empty. *)
Definition no_empty_entry (idx : index_of char) : Prop :=
  forall L sub, idx !! L = Some sub ->
    sub <> ∅ /\ forall key candidates,
      sub !! key = Some candidates -> candidates <> ∅.

(** The verification of a list of candidates: the first exception of the
    distance function ends it. *)
Fixpoint verify_all (T : Z) (dist : list char -> list char -> result Z)
    (w : list char) (cs : list (list char)) (variations : gset (list char))
    : result (gset (list char)) :=
  match cs with
  | [] => Ok variations
  | c :: cs' =>
    match dist w c with
    | Raise e => Raise e
    | Ok d =>
      verify_all T dist w cs'
        (if decide (d <= T) then variations ∪ {[c]} else variations)
    end
  end.

End Examined.

(** ** Examples *)

(** A distance function that fails on one candidate. *)
Definition failing_distance (a b : list nat) : result Z :=
  if decide (b = [4; 5]%nat) then Raise (RaisedError 7) else distance a b.

(** The index of the words [1 2 3] and [4 5] for the threshold 1, with
    the failing distance function. *)
Definition example_index : index_of nat :=
  match _build_inverted_index_by_length 1 [[1; 2; 3]; [4; 5]]%nat with
  | Ok idx => idx
  | Raise _ => ∅
  end.

Definition failing_example : Passjoin nat :=
  {| _max_distance := 1;
     _distance_function := failing_distance;
     _inverted_index_by_length := example_index |}.

(** The queries of [tests/test_passjoin.py], with [Levenshtein.distance]
    as distance function.  The words of the tests are ASCII, so the
    characters of a word are the bytes of the string that writes it;
    [word_of] is meant for such strings only. *)
Definition word_of (s : string) : list Ascii.ascii :=
  String.list_ascii_of_string s.

Definition variations (V : list string) (T : Z) (w : string)
    : result (gset (list Ascii.ascii)) :=
  match __init__ (word_of <$> V) T distance with
  | Ok self => (get_word_variations self (word_of w)).1
  | Raise e => Raise e
  end.

Definition animals : list string := ["girafe"; "lion"; "tiger"]%string.

(** * Verification *)

(** ** Ranges and slices *)

Lemma elem_of_range lo hi k : k ∈ range lo hi <-> lo <= k < hi.
Proof. unfold range. rewrite elem_of_seqZ. lia. Qed.

Lemma length_range lo hi : length (range lo hi) = Z.to_nat (hi - lo).
Proof. unfold range. apply length_seqZ. Qed.

Lemma range_nil lo hi : hi <= lo -> range lo hi = [].
Proof. intros. unfold range. apply seqZ_nil. lia. Qed.

Lemma slice_take_drop {A} (w : list A) (a b : Z) :
  0 <= a <= b -> b <= len w ->
  slice w a b = take (Z.to_nat (b - a)) (drop (Z.to_nat a) w).
Proof.
  intros Ha Hb. unfold slice, slice_bound.
  repeat case_decide; try lia.
  rewrite !Z.min_l by lia. reflexivity.
Qed.

Lemma length_slice {A} (w : list A) (a b : Z) :
  0 <= a <= b -> b <= len w -> len (slice w a b) = b - a.
Proof.
  intros Ha Hb. rewrite slice_take_drop by done.
  unfold len in *. rewrite length_take, length_drop. lia.
Qed.

(** ** The partitioner *)

Lemma contiguous_app start mid stop l1 l2 :
  contiguous start l1 mid -> contiguous mid l2 stop ->
  contiguous start (l1 ++ l2) stop.
Proof.
  revert start. induction l1 as [|[[i p] l] l1 IH]; simpl; intros start.
  - intros ->. done.
  - intros (-> & Hl & Hrest) H2. eauto.
Qed.

Lemma sumZ_cons x l : sumZ (x :: l) = x + sumZ l.
Proof. reflexivity. Qed.

Lemma contiguous_sum start l stop :
  contiguous start l stop -> start + sumZ (descriptor_length <$> l) = stop.
Proof.
  revert start. induction l as [|[[i p] n] l IH]; intros start.
  - cbn. unfold sumZ. cbn. lia.
  - cbn [contiguous]. intros (-> & Hn & Hrest). apply IH in Hrest.
    rewrite fmap_cons, sumZ_cons. unfold descriptor_length at 1. cbn [snd].
    lia.
Qed.

(** A run of [n] descriptors of one length [l], laid out from [base]. *)
Lemma contiguous_run (f g : Z -> Z) (base l : Z) (n : nat) (k : Z) :
  0 <= l -> (forall i, g i = base + i * l) ->
  contiguous (base + k * l)
    ((fun i => (f i, g i, l)) <$> seqZ k (Z.of_nat n))
    (base + (k + Z.of_nat n) * l).
Proof.
  intros Hl Hg. revert k. induction n as [|n IH]; intros k.
  - rewrite seqZ_nil by lia. simpl. lia.
  - rewrite Nat2Z.inj_succ, seqZ_cons by lia.
    replace (Z.pred (Z.succ (Z.of_nat n))) with (Z.of_nat n) by lia.
    rewrite fmap_cons. cbn [contiguous]. split; [apply Hg|].
    split; [done|]. rewrite Hg.
    replace (base + k * l + l) with (base + Z.succ k * l) by lia.
    replace (base + (k + Z.succ (Z.of_nat n)) * l)
      with (base + (Z.succ k + Z.of_nat n) * l) by lia.
    apply IH.
Qed.

Lemma fmap_const_replicate {A B} (b : B) (l : list A) :
  (fun _ => b) <$> l = replicate (length l) b.
Proof. induction l as [|x l IH]; csimpl; [done|]. by rewrite IH. Qed.

Lemma seqZ_index_shift (a : Z) (n : Z) :
  Z.add a <$> seqZ 0 n = seqZ a n.
Proof. rewrite fmap_add_seqZ. f_equal. lia. Qed.

(** What [_compute_partitions] returns when the divisor is not zero. *)
Lemma compute_partitions_unfold (T L : Z) :
  T + 1 <> 0 ->
  let q := L `div` (T + 1) in
  let r := L - q * (T + 1) in
  _compute_partitions T L =
    Ok (((fun i => (i, i * q, q)) <$> range 0 (T + 1 - r)) ++
        ((fun j => (T + 1 - r + j, (T + 1 - r) * q + j * (q + 1), q + 1))
           <$> range 0 r)).
Proof.
  intros Hne. unfold _compute_partitions, floordiv.
  case_decide; [lia|]. reflexivity.
Qed.

(** The shape of the partition of a length [L >= 0] for [T >= 0]. *)
Lemma compute_partitions_spec (T L : Z) :
  0 <= L -> 0 <= T ->
  let q := L `div` (T + 1) in
  let smallCount := (T + 1) - (L - q * (T + 1)) in
  exists partitions,
    _compute_partitions T L = Ok partitions /\
    length partitions = Z.to_nat (T + 1) /\
    descriptor_index <$> partitions = seqZ 0 (T + 1) /\
    0 < smallCount <= T + 1 /\
    descriptor_length <$> partitions =
      replicate (Z.to_nat smallCount) q ++
      replicate (Z.to_nat (T + 1 - smallCount)) (q + 1) /\
    contiguous 0 partitions L /\
    sumZ (descriptor_length <$> partitions) = L.
Proof.
  intros HL HT q smallCount.
  pose proof (Z.mod_pos_bound L (T + 1) ltac:(lia)) as Hr.
  pose proof (Z.mod_eq L (T + 1) ltac:(lia)) as Hmod.
  assert (Hq : 0 <= q) by (apply Z.div_pos; lia).
  set (r := L - q * (T + 1)).
  assert (Hrr : r = L `mod` (T + 1)) by (unfold r, q; lia).
  assert (Hs : smallCount = T + 1 - r) by reflexivity.
  rewrite compute_partitions_unfold by lia. fold q. fold r.
  eexists. split; [reflexivity|].
  assert (Hcont : contiguous 0
    (((fun i => (i, i * q, q)) <$> range 0 (T + 1 - r)) ++
     ((fun j => (T + 1 - r + j, (T + 1 - r) * q + j * (q + 1), q + 1))
        <$> range 0 r)) L).
  { unfold range. rewrite !Z.sub_0_r.
    apply contiguous_app with (mid := (T + 1 - r) * q).
    - pose proof (contiguous_run (fun i => i) (fun i => i * q) 0 q
                    (Z.to_nat (T + 1 - r)) 0 Hq ltac:(intros; cbv beta; lia)) as Hrun.
      rewrite Z2Nat.id in Hrun by lia.
      replace (0 + 0 * q) with 0 in Hrun by lia.
      replace (0 + (0 + (T + 1 - r)) * q) with ((T + 1 - r) * q) in Hrun
        by lia.
      exact Hrun.
    - pose proof (contiguous_run (fun j => T + 1 - r + j)
                    (fun j => (T + 1 - r) * q + j * (q + 1))
                    ((T + 1 - r) * q) (q + 1) (Z.to_nat r) 0
                    ltac:(lia) ltac:(intros; cbv beta; lia)) as Hrun.
      rewrite Z2Nat.id in Hrun by lia.
      replace ((T + 1 - r) * q + 0 * (q + 1)) with ((T + 1 - r) * q)
        in Hrun by lia.
      replace ((T + 1 - r) * q + (0 + r) * (q + 1)) with L in Hrun
        by (unfold r; lia).
      exact Hrun. }
  split; [|split; [|split; [|split; [|split]]]].
  - rewrite length_app, !length_fmap, !length_range. lia.
  - rewrite fmap_app, <- !list_fmap_compose. unfold range.
    rewrite !Z.sub_0_r.
    rewrite (list_fmap_ext _ (fun i => i) (seqZ 0 (T + 1 - r))) by done.
    rewrite list_fmap_id.
    rewrite (list_fmap_ext _ (Z.add (T + 1 - r)) (seqZ 0 r)) by done.
    rewrite seqZ_index_shift.
    replace (T + 1) with ((T + 1 - r) + r) at 3 by lia.
    rewrite seqZ_app by lia. f_equal.
  - lia.
  - rewrite fmap_app, <- !list_fmap_compose.
    rewrite (list_fmap_ext _ (fun _ => q) (range 0 (T + 1 - r))) by done.
    rewrite (list_fmap_ext _ (fun _ => q + 1) (range 0 r)) by done.
    rewrite !fmap_const_replicate, !length_range, Hs.
    f_equal; f_equal; lia.
  - exact Hcont.
  - apply contiguous_sum in Hcont. lia.
Qed.

(** C4. For a length [L >= 0] and a threshold [T >= 0] the partitioner
    returns [T + 1] descriptors, numbered [0 .. T] in order: first
    [smallCount = (T+1) - (L - (L div (T+1)) * (T+1))] descriptors of
    length [L div (T+1)], then the others, of length [L div (T+1) + 1];
    they tile [0, L) without gap or overlap, and their lengths add up to
    [L]. *)
Theorem compute_partitions_correct (T L : Z) :
  0 <= L -> 0 <= T ->
  let q := L `div` (T + 1) in
  let smallCount := (T + 1) - (L - q * (T + 1)) in
  exists partitions,
    _compute_partitions T L = Ok partitions /\
    length partitions = Z.to_nat (T + 1) /\
    descriptor_index <$> partitions = seqZ 0 (T + 1) /\
    0 < smallCount <= T + 1 /\
    descriptor_length <$> partitions =
      replicate (Z.to_nat smallCount) q ++
      replicate (Z.to_nat (T + 1 - smallCount)) (q + 1) /\
    contiguous 0 partitions L /\
    sumZ (descriptor_length <$> partitions) = L.
Proof. exact (compute_partitions_spec T L). Qed.

(** A threshold and a length at which C4 applies. *)
Lemma compute_partitions_correct_witness :
  exists partitions,
    _compute_partitions 2 7 = Ok partitions /\
    length partitions = 3%nat /\
    descriptor_index <$> partitions = [0; 1; 2] /\
    0 < 2 <= 3 /\
    descriptor_length <$> partitions = [2; 2; 3] /\
    contiguous 0 partitions 7 /\
    sumZ (descriptor_length <$> partitions) = 7.
Proof. apply (compute_partitions_correct 2 7); lia. Defined.

(** ** The window of start positions *)

Lemma substrings_selection_eq {char : Type}
    (T : Z) (w : list char) (L' i p l : Z) :
  let delta := len w - L' in
  let lower := Z.max (Z.max (p - i) (p + delta - (T - i))) 0 in
  let upper := Z.min (Z.min (p + i) (p + delta + (T - i))) (len w - l) in
  _substrings_selection T w L' i p l =
    (fun position => slice w position (position + l))
      <$> seqZ lower (upper - lower + 1).
Proof.
  intros delta lower upper.
  unfold _substrings_selection, _minimum_start_position,
    _maximum_start_position, max3, min3, range.
  fold delta. fold lower. fold upper. do 2 f_equal. lia.
Qed.

Lemma elem_of_substrings_selection {char : Type}
    (T : Z) (w : list char) (L' i p l : Z) (s : list char) :
  let delta := len w - L' in
  let lower := Z.max (Z.max (p - i) (p + delta - (T - i))) 0 in
  let upper := Z.min (Z.min (p + i) (p + delta + (T - i))) (len w - l) in
  s ∈ _substrings_selection T w L' i p l <->
  exists position, lower <= position <= upper /\
                   s = slice w position (position + l).
Proof.
  intros delta lower upper.
  rewrite substrings_selection_eq, list_elem_of_fmap.
  fold delta. fold lower. fold upper. split.
  - intros (position & -> & Hin). apply elem_of_seqZ in Hin.
    exists position. split; [lia|done].
  - intros (position & Hpos & ->). exists position. split; [done|].
    apply elem_of_seqZ. lia.
Qed.

(** C3. The probes generated for a descriptor [(i, p, l)] at candidate
    length [L'] are the slices [w[position : position + l]] for the
    positions from [max(p - i, p + delta - (T - i), 0)] to
    [min(p + i, p + delta + (T - i), |w| - l)], in increasing order, where
    [delta = |w| - L']; there is none when the lower bound exceeds the
    upper one. *)
Theorem substrings_selection_window {char : Type}
    (T : Z) (w : list char) (L' i p l : Z) :
  let delta := len w - L' in
  let lower := Z.max (Z.max (p - i) (p + delta - (T - i))) 0 in
  let upper := Z.min (Z.min (p + i) (p + delta + (T - i))) (len w - l) in
  _substrings_selection T w L' i p l =
    (fun position => slice w position (position + l))
      <$> seqZ lower (upper - lower + 1) /\
  (forall s, s ∈ _substrings_selection T w L' i p l <->
     exists position, lower <= position <= upper /\
                      s = slice w position (position + l)) /\
  (upper < lower -> _substrings_selection T w L' i p l = []).
Proof.
  intros delta lower upper. split; [apply substrings_selection_eq|].
  split; [intros s; apply elem_of_substrings_selection|].
  intros Hlt. rewrite substrings_selection_eq. fold delta lower upper.
  rewrite seqZ_nil by lia. reflexivity.
Qed.

(** Inside the window a probe is a genuine substring of length [l]. *)
Lemma substrings_selection_elem {char : Type}
    (T : Z) (w : list char) (L' i p l position : Z) :
  0 <= l ->
  p - i <= position -> p + (len w - L') - (T - i) <= position ->
  0 <= position ->
  position <= p + i -> position <= p + (len w - L') + (T - i) ->
  position + l <= len w ->
  take (Z.to_nat l) (drop (Z.to_nat position) w)
    ∈ _substrings_selection T w L' i p l.
Proof.
  intros Hl H1 H2 H3 H4 H5 H6.
  apply elem_of_substrings_selection. exists position. split; [lia|].
  rewrite slice_take_drop by lia. do 2 f_equal. lia.
Qed.

(** C10. For a descriptor index [0 <= i <= T] at most
    [min(2 i, 2 (T - i)) + 1] probes are generated, hence at most
    [T + 1]. *)
Theorem substrings_selection_bound {char : Type}
    (T : Z) (w : list char) (L' i p l : Z) :
  0 <= i <= T ->
  Z.of_nat (length (_substrings_selection T w L' i p l))
    <= Z.min (2 * i) (2 * (T - i)) + 1 /\
  Z.of_nat (length (_substrings_selection T w L' i p l)) <= T + 1.
Proof.
  intros Hi.
  rewrite substrings_selection_eq, length_fmap, length_seqZ. lia.
Qed.

(** A descriptor in the middle of a word reaches the bound. *)
Lemma substrings_selection_bound_witness :
  Z.of_nat (length (_substrings_selection 2 [1; 2; 3; 4; 5; 6; 7]%nat 7 1 2 2))
    <= Z.min (2 * 1) (2 * (2 - 1)) + 1 /\
  Z.of_nat (length (_substrings_selection 2 [1; 2; 3; 4; 5; 6; 7]%nat 7 1 2 2))
    <= 2 + 1.
Proof.
  apply (substrings_selection_bound 2 [1; 2; 3; 4; 5; 6; 7]%nat 7 1 2 2). lia.
Defined.

(** ** The query as one pass over the examined candidates *)

Lemma candidates_range_nonneg (T : Z) {char} (w : list char) (L' : Z) :
  L' ∈ _candidates_word_length_range T w ->
  0 <= T /\ 0 <= L' /\ len w - T <= L' <= len w + T.
Proof.
  unfold _candidates_word_length_range. rewrite elem_of_range.
  unfold len. lia.
Qed.

Section Query.
Context {char : Type} `{Countable char}.
Variable T : Z.
Variable dist : list char -> list char -> result Z.
Variable w : list char.

Lemma verify_all_app (cs1 cs2 : list (list char))
    (variations : gset (list char)) :
  verify_all T dist w (cs1 ++ cs2) variations =
  match verify_all T dist w cs1 variations with
  | Ok variations' => verify_all T dist w cs2 variations'
  | Raise e => Raise e
  end.
Proof.
  revert variations. induction cs1 as [|c cs1 IH]; intros variations.
  - reflexivity.
  - cbn [app verify_all]. destruct (dist w c); [apply IH|reflexivity].
Qed.

(** A loop whose body verifies a list of candidates and leaves the index
    alone verifies the concatenation of the lists. *)
Lemma for_in_verify {X} (g : X -> list (list char))
    (body : gset (list char) -> X -> M (index_of char) (gset (list char)))
    (xs : list X) (variations : gset (list char)) (idx : index_of char) :
  (forall x variations, x ∈ xs ->
     body variations x idx = (verify_all T dist w (g x) variations, idx)) ->
  for_in xs body variations idx =
    (verify_all T dist w (xs ≫= g) variations, idx).
Proof.
  revert variations. induction xs as [|x xs IH]; intros variations Hbody.
  - reflexivity.
  - cbn [for_in]. unfold mbind at 1. rewrite Hbody by left.
    rewrite bind_cons, verify_all_app.
    destruct (verify_all T dist w (g x) variations); [|reflexivity].
    apply IH. intros x' variations' Hx'. apply Hbody. by right.
Qed.

Lemma for_in_candidates (cs : list (list char))
    (variations : gset (list char)) (idx : index_of char) :
  for_in cs
    (fun variations candidate =>
       d <- lift (dist w candidate) ;;
       mret (if decide (d <= T) then variations ∪ {[candidate]}
             else variations))
    variations idx
  = (verify_all T dist w cs variations, idx).
Proof.
  revert variations. induction cs as [|c cs IH]; intros variations.
  - reflexivity.
  - cbn [for_in verify_all]. unfold mbind at 1. unfold mbind at 1.
    unfold lift at 1. destruct (dist w c) as [d|e]; [|reflexivity].
    unfold mret at 1. apply IH.
Qed.

(** The query leaves the index as it is and returns the verification of
    the examined candidates. *)
Lemma get_word_variations_loop_run (idx : index_of char) :
  get_word_variations_loop T dist w idx =
    (verify_all T dist w (examined T idx w) ∅, idx).
Proof.
  unfold get_word_variations_loop, examined.
  apply for_in_verify. intros L' variations HL'.
  apply candidates_range_nonneg in HL' as (HT & _).
  unfold mbind at 1, index_get at 1.
  destruct (idx !! L') as [sub|] eqn:Hsub; [|reflexivity].
  unfold mbind at 1, lift at 1.
  rewrite compute_partitions_unfold by lia. cbv zeta.
  apply (for_in_verify
    (fun d => substring ← _substrings_selection T w L' d.1.1 d.1.2 d.2;
              candidates_at idx L' (d.1.1, substring))).
  intros [[i p] l] variations' _. cbn [fst snd].
  apply (for_in_verify (fun substring => candidates_at idx L' (i, substring))).
  intros substring variations'' _.
  unfold mbind at 1, candidates_get at 1. apply for_in_candidates.
Qed.

End Query.

Section Verification.
Context {char : Type} `{Countable char}.
Variable T : Z.
Variable dist : list char -> list char -> result Z.
Variable w : list char.

(** When no exception ends the verification, the result holds what was
    there before and the candidates within the threshold. *)
Lemma verify_all_Ok (cs : list (list char)) (v vs : gset (list char)) :
  verify_all T dist w cs v = Ok vs ->
  forall c, c ∈ vs <->
    c ∈ v \/ (c ∈ cs /\ exists d, dist w c = Ok d /\ d <= T).
Proof.
  revert v. induction cs as [|c0 cs IH]; intros v Hrun c.
  - cbn in Hrun. injection Hrun as <-. split; [by left|].
    intros [Hc|(Hc & _)]; [done|]. by apply elem_of_nil in Hc.
  - cbn [verify_all] in Hrun.
    destruct (dist w c0) as [d0|e0] eqn:Hd0; [|discriminate].
    rewrite (IH _ Hrun c). rewrite elem_of_cons. case_decide as Hle.
    + rewrite elem_of_union, elem_of_singleton. split.
      * intros [[Hc| ->]|(Hc & Hd)]; [by left| |right; by auto].
        right. split; [by left|]. eauto.
      * intros [Hc|([->|Hc] & Hd)]; [by left;left|by left; right|].
        right. by auto.
    + split.
      * intros [Hc|(Hc & Hd)]; [by left|right; by auto].
      * intros [Hc|([->|Hc] & Hd)]; [by left| |right; by auto].
        destruct Hd as (d & Hd & Hle'). rewrite Hd0 in Hd.
        injection Hd as ->. lia.
Qed.

(** The verification returns a set when the distance function answers on
    every candidate. *)
Lemma verify_all_total (cs : list (list char)) (v : gset (list char)) :
  (forall c, c ∈ cs -> is_Ok (dist w c)) ->
  exists vs, verify_all T dist w cs v = Ok vs.
Proof.
  revert v. induction cs as [|c0 cs IH]; intros v Hall.
  - by eexists.
  - cbn [verify_all]. pose proof (Hall c0 ltac:(left)) as Hc0.
    destruct (dist w c0) as [d0|e0]; [|done].
    apply IH. intros c Hc. apply Hall. by right.
Qed.

(** The exception of the first candidate on which the distance function
    fails is the result of the verification. *)
Lemma verify_all_Raise (cs : list (list char)) (c : list char) (e : exn) :
  c ∈ cs -> dist w c = Raise e ->
  exists cs1 c' cs2 e',
    cs = cs1 ++ c' :: cs2 /\
    (forall x, x ∈ cs1 -> is_Ok (dist w x)) /\
    dist w c' = Raise e' /\
    forall v, verify_all T dist w cs v = Raise e'.
Proof.
  induction cs as [|c0 cs IH]; intros Hin Hc.
  - by apply elem_of_nil in Hin.
  - destruct (dist w c0) as [d0|e0] eqn:Hd0.
    + apply elem_of_cons in Hin as [->|Hin]; [congruence|].
      destruct (IH Hin Hc) as (cs1 & c' & cs2 & e' & -> & Hok & Hc' & Hrun).
      exists (c0 :: cs1), c', cs2, e'. split; [done|]. split.
      * intros x [->|Hx]%elem_of_cons; [by rewrite Hd0|by apply Hok].
      * split; [done|]. intros v. cbn [app verify_all]. rewrite Hd0.
        apply Hrun.
    + exists [], c0, cs, e0. split; [done|]. split.
      * intros x Hx. by apply elem_of_nil in Hx.
      * split; [done|]. intros v. cbn [verify_all]. by rewrite Hd0.
Qed.

(** An exception of the verification was raised by the distance function
    on one of the candidates. *)
Lemma verify_all_Raise_inv (cs : list (list char)) (v : gset (list char))
    (e : exn) :
  verify_all T dist w cs v = Raise e ->
  exists c, c ∈ cs /\ dist w c = Raise e.
Proof.
  revert v. induction cs as [|c cs IH]; intros v; [discriminate|].
  cbn [verify_all]. destruct (dist w c) as [n|e'] eqn:Hc.
  - intros (c' & Hc' & He)%IH. exists c'. split; [by right|done].
  - intros [= <-]. exists c. split; [by left|done].
Qed.

(** The order in which the candidates are verified decides neither the
    set that is returned nor whether an exception comes out, only which
    exception when the distance function fails on several candidates. *)
Lemma verify_all_any_order (cs cs' : list (list char))
    (v : gset (list char)) :
  cs ≡ₚ cs' ->
  match verify_all T dist w cs v, verify_all T dist w cs' v with
  | Ok vs, Ok vs' => vs = vs'
  | Raise e, Raise e' =>
    (exists c, c ∈ cs /\ dist w c = Raise e) /\
    (exists c', c' ∈ cs /\ dist w c' = Raise e')
  | _, _ => False
  end.
Proof.
  intros Hperm.
  destruct (verify_all T dist w cs v) as [vs|e] eqn:Hrun,
           (verify_all T dist w cs' v) as [vs'|e'] eqn:Hrun'.
  - apply set_eq. intros c.
    rewrite (verify_all_Ok _ _ _ Hrun c), (verify_all_Ok _ _ _ Hrun' c).
    by rewrite Hperm.
  - apply verify_all_Raise_inv in Hrun' as (c & Hc & He).
    rewrite <- Hperm in Hc.
    destruct (verify_all_Raise cs c e' Hc He) as (_ & _ & _ & e'' & _ & _ & _ & Hr).
    by rewrite Hr in Hrun.
  - apply verify_all_Raise_inv in Hrun as (c & Hc & He).
    rewrite Hperm in Hc.
    destruct (verify_all_Raise cs' c e Hc He) as (_ & _ & _ & e'' & _ & _ & _ & Hr).
    by rewrite Hr in Hrun'.
  - split; [by apply verify_all_Raise_inv in Hrun|].
    apply verify_all_Raise_inv in Hrun' as (c & Hc & He).
    rewrite <- Hperm in Hc. by exists c.
Qed.

End Verification.

(** What a query returns, and the object it leaves. *)
Lemma get_word_variations_run {char : Type} `{Countable char}
    (self : Passjoin char) (w : list char) :
  get_word_variations self w =
    (verify_all (_max_distance self) (_distance_function self) w
       (examined (_max_distance self) (_inverted_index_by_length self) w) ∅,
     self).
Proof.
  unfold get_word_variations. rewrite get_word_variations_loop_run.
  by destruct self.
Qed.

(** ** The index is not touched by a query *)

(** C7. A query leaves the index exactly as it was: the object after
    [get_word_variations] is the object before it. *)
Theorem query_leaves_index_unchanged {char : Type} `{Countable char}
    (self : Passjoin char) (w : list char) :
  (get_word_variations self w).2 = self /\
  _inverted_index_by_length (get_word_variations self w).2
    = _inverted_index_by_length self.
Proof. by rewrite get_word_variations_run. Qed.

(** ** A failure of the distance function *)

(** C9. When the distance function raises on a candidate that the query
    examines, the query raises: its result is not a set of words but an
    exception that the distance function raised on an examined
    candidate. *)
Theorem distance_failure_propagates {char : Type} `{Countable char}
    (self : Passjoin char) (w c : list char) (e : exn) :
  c ∈ examined (_max_distance self) (_inverted_index_by_length self) w ->
  _distance_function self w c = Raise e ->
  exists c' e',
    c' ∈ examined (_max_distance self) (_inverted_index_by_length self) w /\
    _distance_function self w c' = Raise e' /\
    (get_word_variations self w).1 = Raise e'.
Proof.
  intros Hin Hc. rewrite get_word_variations_run.
  destruct (verify_all_Raise (_max_distance self) (_distance_function self)
              w _ c e Hin Hc) as (cs1 & c' & cs2 & e' & Heq & Hok & Hc' & Hrun).
  exists c', e'. split.
  - rewrite Heq. apply elem_of_app. right. by left.
  - split; [done|]. apply Hrun.
Qed.

(** ** The index that construction builds *)

Section Build.
Context {char : Type} `{Countable char}.

Lemma elem_of_candidates_at (idx : index_of char) (L' : Z)
    (key : Z * list char) (c : list char) :
  c ∈ candidates_at idx L' key <-> c ∈ lookup_set idx L' key.
Proof.
  unfold candidates_at, lookup_set.
  destruct (idx !! L' ≫= (.!! key)) as [s|]; cbn.
  - apply elem_of_elements.
  - rewrite elem_of_nil. set_solver.
Qed.

Lemma candidates_at_lookup_set (idx : index_of char) (L' : Z)
    (key : Z * list char) :
  candidates_at idx L' key = elements (lookup_set idx L' key).
Proof.
  unfold candidates_at, lookup_set.
  destruct (idx !! L' ≫= (.!! key)) as [s|]; cbn; [done|].
  by rewrite elements_empty.
Qed.

(** One insertion: the word joins the set of its key, and the length gets
    an entry. *)
Lemma getitem_add_run (L : Z) (key : Z * list char) (w : list char)
    (idx : index_of char) :
  exists idx',
    getitem_add L key w idx = (Ok (), idx') /\
    (forall L' key' c,
       c ∈ lookup_set idx' L' key' <->
       c ∈ lookup_set idx L' key' \/ (L' = L /\ key' = key /\ c = w)) /\
    (forall L', is_Some (idx' !! L') <-> is_Some (idx !! L') \/ L' = L).
Proof.
  eexists. split; [reflexivity|]. split.
  - intros L' key' c. unfold lookup_set.
    destruct (decide (L' = L)) as [->|HL].
    + rewrite lookup_insert_eq. cbn.
      destruct (decide (key' = key)) as [->|Hkey].
      * rewrite lookup_insert_eq. cbn. rewrite elem_of_union, elem_of_singleton.
        destruct (idx !! L) as [sub|]; cbn; [|rewrite lookup_empty; cbn];
          intuition (subst; eauto; congruence).
      * rewrite lookup_insert_ne by done.
        destruct (idx !! L) as [sub|]; cbn; [|rewrite lookup_empty; cbn];
          intuition (subst; eauto; congruence).
    + rewrite lookup_insert_ne by done. intuition (subst; eauto; congruence).
  - intros L'. destruct (decide (L' = L)) as [->|HL].
    + rewrite lookup_insert_eq. split; [by right|]. by eexists.
    + rewrite lookup_insert_ne by done. intuition (subst; eauto; congruence).
Qed.

(** The insertions for the keys of one word. *)
Lemma add_keys_run (L : Z) (w : list char) (keys : list (Z * list char))
    (idx : index_of char) :
  exists idx',
    for_in keys (fun _ key => getitem_add L key w) () idx = (Ok (), idx') /\
    (forall L' key' c,
       c ∈ lookup_set idx' L' key' <->
       c ∈ lookup_set idx L' key' \/ (L' = L /\ key' ∈ keys /\ c = w)) /\
    (forall L', is_Some (idx' !! L') <->
                is_Some (idx !! L') \/ (L' = L /\ keys <> [])).
Proof.
  revert idx. induction keys as [|key keys IH]; intros idx.
  - exists idx. split; [reflexivity|]. split.
    + intros L' key' c. rewrite elem_of_nil. intuition (subst; eauto; congruence).
    + intros L'. intuition (subst; eauto; congruence).
  - destruct (getitem_add_run L key w idx) as (idx1 & Hrun1 & Hset1 & Hdom1).
    destruct (IH idx1) as (idx2 & Hrun2 & Hset2 & Hdom2).
    exists idx2. split.
    + cbn [for_in]. unfold mbind at 1. rewrite Hrun1. exact Hrun2.
    + split.
      * intros L' key' c. rewrite Hset2, Hset1, elem_of_cons. intuition (subst; eauto; congruence).
      * intros L'. rewrite Hdom2, Hdom1. intuition (subst; eauto; congruence).
Qed.

(** The whole loop, when the partitioner does not divide by zero. *)
Lemma build_loop_run (T : Z) (words : list (list char))
    (idx : index_of char) :
  T + 1 <> 0 ->
  exists idx',
    build_loop T words idx = (Ok (), idx') /\
    (forall L key c,
       c ∈ lookup_set idx' L key <->
       c ∈ lookup_set idx L key \/
       (c ∈ words /\ len c = L /\
        exists keys, _generate_segments T c = Ok keys /\ key ∈ keys)) /\
    (forall L, is_Some (idx' !! L) <->
       is_Some (idx !! L) \/
       exists c keys, c ∈ words /\ len c = L /\
                      _generate_segments T c = Ok keys /\ keys <> []).
Proof.
  intros HT. unfold build_loop. revert idx.
  induction words as [|w words IH]; intros idx.
  - exists idx. split; [reflexivity|]. split.
    + intros L key c. rewrite elem_of_nil. intuition (subst; eauto; congruence).
    + intros L. split; [by left|]. intros [?|(c & keys & Hc & _)]; [done|].
      by apply elem_of_nil in Hc.
  - assert (exists keys, _generate_segments T w = Ok keys) as (keys & Hkeys).
    { unfold _generate_segments. rewrite compute_partitions_unfold by done.
      by eexists. }
    destruct (add_keys_run (len w) w keys idx) as (idx1 & Hrun1 & Hset1 & Hdom1).
    destruct (IH idx1) as (idx2 & Hrun2 & Hset2 & Hdom2).
    exists idx2. split.
    + cbn [for_in]. unfold mbind at 1, mbind at 1, lift at 1.
      rewrite Hkeys, Hrun1. exact Hrun2.
    + split.
      * intros L key c. rewrite Hset2, Hset1, elem_of_cons. split.
        -- intros [[Hc|(-> & Hkey & ->)]|(Hc & HL & Hk)].
           ++ by left.
           ++ right. split; [by left|]. split; [done|]. eauto.
           ++ right. split; [by right|]. done.
        -- intros [Hc|([->|Hc] & HL & (keys' & Hk & Hkey))].
           ++ by left; left.
           ++ left; right. rewrite Hkeys in Hk. injection Hk as <-. done.
           ++ right. split; [done|]. split; [done|]. eauto.
      * intros L. rewrite Hdom2, Hdom1. split.
        -- intros [[Hs|(-> & Hne)]|(c & keys' & Hc & HL & Hk & Hne)].
           ++ by left.
           ++ right. exists w, keys. split; [by left|]. done.
           ++ right. exists c, keys'. split; [by right|]. done.
        -- intros [Hs|(c & keys' & [->|Hc]%elem_of_cons & HL & Hk & Hne)].
           ++ by left; left.
           ++ left; right. rewrite Hkeys in Hk. injection Hk as <-. done.
           ++ right. exists c, keys'. done.
Qed.

End Build.

Section BuildSpec.
Context {char : Type} `{Countable char}.

Lemma lookup_set_empty (L : Z) (key : Z * list char) :
  lookup_set (∅ : index_of char) L key = ∅.
Proof. unfold lookup_set. by rewrite lookup_empty. Qed.

(** Construction with [T + 1 <> 0] succeeds; the index holds each word
    under its length and each of its keys, and nothing else. *)
Lemma build_Ok (T : Z) (V : list (list char)) :
  T + 1 <> 0 ->
  exists idx : index_of char,
    _build_inverted_index_by_length T V = Ok idx /\
    (forall L key c,
       c ∈ lookup_set idx L key <->
       c ∈ V /\ len c = L /\
       exists keys, _generate_segments T c = Ok keys /\ key ∈ keys) /\
    (forall L, is_Some (idx !! L) <->
       exists c keys, c ∈ V /\ len c = L /\
                      _generate_segments T c = Ok keys /\ keys <> []).
Proof.
  intros HT.
  destruct (build_loop_run T V ∅ HT) as (idx & Hrun & Hset & Hdom).
  exists idx. split.
  - unfold _build_inverted_index_by_length. by rewrite Hrun.
  - split.
    + intros L key c. rewrite Hset, lookup_set_empty.
      split; [|by right]. intros [Hc|Hc]; [|done]. set_solver.
    + intros L. rewrite Hdom, lookup_empty. split; [|by right].
      intros [Hs|Hc]; [|done]. by destruct Hs.
Qed.

(** With [T = -1] the partitioner divides by zero on the first word. *)
Lemma build_minus_one (V : list (list char)) :
  _build_inverted_index_by_length (-1) V =
    match V with
    | [] => Ok (∅ : index_of char)
    | _ :: _ => Raise ZeroDivisionError
    end.
Proof. by destruct V. Qed.

(** Whatever the threshold, an index that was built holds only words of
    the vocabulary. *)
Lemma build_sound (T : Z) (V : list (list char)) (idx : index_of char)
    (L : Z) (key : Z * list char) (c : list char) :
  _build_inverted_index_by_length T V = Ok idx ->
  c ∈ lookup_set idx L key -> c ∈ V.
Proof.
  intros Hbuild Hc. destruct (decide (T + 1 = 0)) as [HT|HT].
  - replace T with (-1) in Hbuild by lia. rewrite build_minus_one in Hbuild.
    destruct V; [|discriminate]. injection Hbuild as <-.
    rewrite lookup_set_empty in Hc. set_solver.
  - destruct (build_Ok T V HT) as (idx' & Hbuild' & Hset & _).
    rewrite Hbuild in Hbuild'. injection Hbuild' as <-.
    by apply Hset in Hc as (Hc & _).
Qed.

Lemma bind_ext_in {A B} (f g : A -> list B) (l : list A) :
  (forall x, x ∈ l -> f x = g x) -> l ≫= f = l ≫= g.
Proof.
  induction l as [|x l IH]; intros Hfg; [done|].
  rewrite !bind_cons, Hfg by left. f_equal. apply IH.
  intros y Hy. apply Hfg. by right.
Qed.

(** The examined candidates depend on the index only through the entries
    of the candidate lengths. *)
Lemma examined_ext (T : Z) (idx1 idx2 : index_of char) (w : list char) :
  (forall L', L' ∈ _candidates_word_length_range T w ->
     (is_Some (idx1 !! L') <-> is_Some (idx2 !! L')) /\
     forall key, lookup_set idx1 L' key = lookup_set idx2 L' key) ->
  examined T idx1 w = examined T idx2 w.
Proof.
  intros Hagree. unfold examined. apply bind_ext_in. intros L' HL'.
  destruct (Hagree L' HL') as (Hdom & Hset).
  assert (Hrest : forall partitions : list (Z * Z * Z),
    (d ← partitions;
     substring ← _substrings_selection T w L' d.1.1 d.1.2 d.2;
     candidates_at idx1 L' (d.1.1, substring)) =
    (d ← partitions;
     substring ← _substrings_selection T w L' d.1.1 d.1.2 d.2;
     candidates_at idx2 L' (d.1.1, substring))).
  { intros partitions. apply bind_ext_in. intros d _.
    apply bind_ext_in. intros substring _.
    by rewrite !candidates_at_lookup_set, Hset. }
  destruct (idx1 !! L') as [sub1|], (idx2 !! L') as [sub2|].
  - destruct (_compute_partitions T L'); [apply Hrest|done].
  - destruct Hdom as [Hdom _]. by destruct (Hdom ltac:(eauto)).
  - destruct Hdom as [_ Hdom]. by destruct (Hdom ltac:(eauto)).
  - done.
Qed.

(** An examined candidate is a word of a candidate set of the index. *)
Lemma examined_in_index (T : Z) (idx : index_of char) (w c : list char) :
  c ∈ examined T idx w ->
  exists L' key, L' ∈ _candidates_word_length_range T w /\
                 is_Some (idx !! L') /\ c ∈ lookup_set idx L' key.
Proof.
  unfold examined. rewrite list_elem_of_bind. intros (L' & Hc & HL').
  exists L'. destruct (idx !! L') as [sub|] eqn:Hsub;
    [|by apply elem_of_nil in Hc].
  destruct (_compute_partitions T L') as [partitions|];
    [|by apply elem_of_nil in Hc].
  apply list_elem_of_bind in Hc as (d & Hc & _).
  apply list_elem_of_bind in Hc as (substring & Hc & _).
  apply elem_of_candidates_at in Hc. eauto.
Qed.

End BuildSpec.

(** ** No false positives *)

(** C2. Every word that a query returns is within the threshold of the
    query word, according to the distance function of the index, and is
    a word of the vocabulary the index was built from. *)
Theorem no_false_positives {char : Type} `{Countable char}
    (V : list (list char)) (T : Z)
    (d : list char -> list char -> result Z)
    (self : Passjoin char) (w : list char) (vs : gset (list char))
    (c : list char) :
  __init__ V T d = Ok self ->
  (get_word_variations self w).1 = Ok vs ->
  c ∈ vs ->
  (exists n, d w c = Ok n /\ n <= T) /\ c ∈ V.
Proof.
  intros Hinit Hrun Hc. unfold __init__ in Hinit.
  destruct (_build_inverted_index_by_length T V) as [idx|] eqn:Hbuild;
    [|discriminate].
  injection Hinit as <-. rewrite get_word_variations_run in Hrun.
  cbn [fst _max_distance _distance_function _inverted_index_by_length] in Hrun.
  apply (verify_all_Ok _ _ _ _ _ _ Hrun) in Hc as [Hc|(Hc & Hd)];
    [set_solver|].
  split; [done|].
  apply examined_in_index in Hc as (L' & key & _ & _ & Hc).
  by apply (build_sound T V idx L' key).
Qed.

(** ** The vocabulary as a set *)

(** C8. Two vocabularies with the same words, in any order and with any
    repetitions, give indexes that answer every query with the same set:
    construction succeeds on both or on neither, a query raises on both
    or on neither, and the sets returned are equal. *)
Theorem construction_order_insensitive {char : Type} `{Countable char}
    (V1 V2 : list (list char)) (T : Z)
    (d : list char -> list char -> result Z) :
  (forall x, x ∈ V1 <-> x ∈ V2) ->
  (is_Ok (__init__ V1 T d) <-> is_Ok (__init__ V2 T d)) /\
  forall self1 self2 w,
    __init__ V1 T d = Ok self1 -> __init__ V2 T d = Ok self2 ->
    (is_Ok (get_word_variations self1 w).1 <->
     is_Ok (get_word_variations self2 w).1) /\
    forall vs1 vs2,
      (get_word_variations self1 w).1 = Ok vs1 ->
      (get_word_variations self2 w).1 = Ok vs2 ->
      vs1 = vs2.
Proof.
  intros HV. unfold __init__. destruct (decide (T + 1 = 0)) as [HT|HT].
  - replace T with (-1) by lia. rewrite !build_minus_one.
    destruct V1 as [|x1 V1], V2 as [|x2 V2].
    + split; [done|]. intros self1 self2 w [= <-] [= <-].
      split; [done|]. intros vs1 vs2 Hvs1 Hvs2. congruence.
    + destruct (HV x2) as [_ Hx]. specialize (Hx ltac:(left)).
      by apply elem_of_nil in Hx.
    + destruct (HV x1) as [Hx _]. specialize (Hx ltac:(left)).
      by apply elem_of_nil in Hx.
    + split; [done|]. by intros self1 self2 w [=].
  - destruct (build_Ok T V1 HT) as (idx1 & -> & Hset1 & Hdom1).
    destruct (build_Ok T V2 HT) as (idx2 & -> & Hset2 & Hdom2).
    split; [done|]. intros self1 self2 w [= <-] [= <-].
    rewrite !get_word_variations_run.
    cbn [fst _max_distance _distance_function _inverted_index_by_length].
    assert (Hex : examined T idx1 w = examined T idx2 w).
    { apply examined_ext. intros L' _. split.
      - rewrite Hdom1, Hdom2. split; intros (c & keys & Hc & Hrest);
          exists c, keys; (split; [by apply HV|done]).
      - intros key. apply set_eq. intros c. rewrite Hset1, Hset2.
        by rewrite HV. }
    rewrite Hex. split; [done|]. intros vs1 vs2 Hvs1 Hvs2. congruence.
Qed.

(** A vocabulary, and the same words reordered with a repetition. *)
Lemma construction_order_insensitive_witness :
  (is_Ok (__init__ [[1; 2; 3]; [4; 5]]%nat 1 distance) <->
   is_Ok (__init__ [[4; 5]; [1; 2; 3]; [4; 5]]%nat 1 distance)) /\
  forall self1 self2 w,
    __init__ [[1; 2; 3]; [4; 5]]%nat 1 distance = Ok self1 ->
    __init__ [[4; 5]; [1; 2; 3]; [4; 5]]%nat 1 distance = Ok self2 ->
    (is_Ok (get_word_variations self1 w).1 <->
     is_Ok (get_word_variations self2 w).1) /\
    forall vs1 vs2,
      (get_word_variations self1 w).1 = Ok vs1 ->
      (get_word_variations self2 w).1 = Ok vs2 ->
      vs1 = vs2.
Proof.
  apply (construction_order_insensitive
           [[1; 2; 3]; [4; 5]]%nat [[4; 5]; [1; 2; 3]; [4; 5]]%nat 1 distance).
  intros x. rewrite !elem_of_cons, !elem_of_nil. tauto.
Defined.

(** A word of the vocabulary returned by a query within the threshold. *)
Lemma no_false_positives_witness :
  (exists n, distance [1; 2; 3; 4]%nat [1; 2; 3]%nat = Ok n /\ n <= 1) /\
  [1; 2; 3]%nat ∈ [[1; 2; 3]; [4; 5]]%nat.
Proof.
  eapply (no_false_positives [[1; 2; 3]; [4; 5]]%nat 1 distance _
            [1; 2; 3; 4]%nat _ [1; 2; 3]%nat).
  - reflexivity.
  - vm_compute. reflexivity.
  - vm_compute. reflexivity.
Defined.

(** ** The candidate lengths *)

Lemma examined_nil_of_range_nil {char : Type} `{Countable char}
    (T : Z) (idx : index_of char) (w : list char) :
  (forall L', L' ∈ _candidates_word_length_range T w -> idx !! L' = None) ->
  examined T idx w = [].
Proof.
  intros Hnone. unfold examined.
  induction (_candidates_word_length_range T w) as [|L' Ls IH]; [done|].
  rewrite bind_cons, (Hnone L') by left. cbn [app]. apply IH.
  intros L'' HL''. apply Hnone. by right.
Qed.

(** The candidates that are examined: the members of the candidate sets
    found under the probes of the descriptors, for the candidate lengths
    that have an entry. *)
Lemma elem_of_examined {char : Type} `{Countable char}
    (T : Z) (idx : index_of char) (w c : list char) :
  c ∈ examined T idx w <->
  exists L' sub partitions i p l s candidates,
    L' ∈ _candidates_word_length_range T w /\
    idx !! L' = Some sub /\
    _compute_partitions T L' = Ok partitions /\
    (i, p, l) ∈ partitions /\
    s ∈ _substrings_selection T w L' i p l /\
    sub !! (i, s) = Some candidates /\
    c ∈ candidates.
Proof.
  unfold examined. rewrite list_elem_of_bind. split.
  - intros (L' & Hc & HL'). exists L'.
    destruct (idx !! L') as [sub|] eqn:Hsub; [|by apply elem_of_nil in Hc].
    destruct (_compute_partitions T L') as [partitions|];
      [|by apply elem_of_nil in Hc].
    apply list_elem_of_bind in Hc as ([[i p] l] & Hc & Hd).
    apply list_elem_of_bind in Hc as (s & Hc & Hs). cbn [fst snd] in Hc, Hs.
    unfold candidates_at in Hc. rewrite Hsub in Hc. cbn in Hc.
    destruct (sub !! (i, s)) as [candidates|] eqn:Hkey;
      [|by apply elem_of_nil in Hc].
    apply elem_of_elements in Hc.
    by exists sub, partitions, i, p, l, s, candidates.
  - intros (L' & sub & partitions & i & p & l & s & candidates
            & HL' & Hsub & Hparts & Hd & Hs & Hkey & Hc).
    exists L'. split; [|done]. rewrite Hsub, Hparts.
    apply list_elem_of_bind. exists (i, p, l). split; [|done].
    apply list_elem_of_bind. exists s. split; [|done]. cbn [fst snd].
    unfold candidates_at. rewrite Hsub. cbn. rewrite Hkey.
    by apply elem_of_elements.
Qed.

(** C5. The candidate lengths of a query for [w] are the integers from
    [max(0, |w| - T)] to [|w| + T], and the answer depends on no other
    entry of the index.  A length of that range without an entry is passed
    over, whether or not other lengths have one: it raises nothing, an
    exception of the query being one that the distance function raised on
    an examined candidate, and it contributes nothing, the examined
    candidates being the members of the candidate sets found under the
    lengths of the range that do have an entry; when the distance function
    answers on them the query returns the set of those it accepts, and when
    no length has an entry the empty set. *)
Theorem candidate_length_restriction {char : Type} `{Countable char}
    (self : Passjoin char) (w : list char) :
  let T := _max_distance self in
  let d := _distance_function self in
  let idx := _inverted_index_by_length self in
  (forall L', L' ∈ _candidates_word_length_range T w <->
              Z.max 0 (len w - T) <= L' <= len w + T) /\
  (forall idx' : index_of char,
     (forall L', Z.max 0 (len w - T) <= L' <= len w + T ->
                 idx' !! L' = idx !! L') ->
     let r' := (get_word_variations
                  {| _max_distance := T; _distance_function := d;
                     _inverted_index_by_length := idx' |} w).1 in
     let r := (get_word_variations self w).1 in
     (is_Ok r' <-> is_Ok r) /\
     forall vs' vs, r' = Ok vs' -> r = Ok vs -> vs' = vs) /\
  ((forall L', Z.max 0 (len w - T) <= L' <= len w + T -> idx !! L' = None) ->
   get_word_variations self w = (Ok ∅, self)) /\
  (forall c, c ∈ examined T idx w <->
     exists L' sub partitions i p l s candidates,
       Z.max 0 (len w - T) <= L' <= len w + T /\
       idx !! L' = Some sub /\
       _compute_partitions T L' = Ok partitions /\
       (i, p, l) ∈ partitions /\
       s ∈ _substrings_selection T w L' i p l /\
       sub !! (i, s) = Some candidates /\
       c ∈ candidates) /\
  (forall e, (get_word_variations self w).1 = Raise e ->
     exists c, c ∈ examined T idx w /\ d w c = Raise e) /\
  (forall c e, c ∈ examined T idx w -> d w c = Raise e ->
     ~ is_Ok (get_word_variations self w).1) /\
  ((forall c, c ∈ examined T idx w -> is_Ok (d w c)) ->
   exists vs,
     (get_word_variations self w).1 = Ok vs /\
     forall c, c ∈ vs <->
       c ∈ examined T idx w /\ exists n, d w c = Ok n /\ n <= T).
Proof.
  intros T d idx.
  assert (Hrange : forall L', L' ∈ _candidates_word_length_range T w <->
                              Z.max 0 (len w - T) <= L' <= len w + T).
  { intros L'. unfold _candidates_word_length_range.
    rewrite elem_of_range. lia. }
  split; [exact Hrange|]. split; [|split; [|split; [|split; [|split]]]].
  - intros idx' Hagree. cbv zeta. rewrite !get_word_variations_run.
    cbn [fst _max_distance _distance_function _inverted_index_by_length].
    assert (Hex : examined T idx' w = examined T idx w).
    { apply examined_ext. intros L' HL'%Hrange.
      unfold lookup_set. by rewrite (Hagree L' HL'). }
    rewrite Hex. fold T d idx. split; [done|].
    intros vs' vs Hvs' Hvs. congruence.
  - intros Hnone. rewrite get_word_variations_run. fold T d idx.
    rewrite examined_nil_of_range_nil; [done|].
    intros L' HL'%Hrange. by apply Hnone.
  - intros c. rewrite elem_of_examined. split.
    + intros (L' & sub & partitions & i & p & l & s & candidates
              & HL'%Hrange & Hrest).
      by exists L', sub, partitions, i, p, l, s, candidates.
    + intros (L' & sub & partitions & i & p & l & s & candidates
              & HL'%Hrange & Hrest).
      by exists L', sub, partitions, i, p, l, s, candidates.
  - intros e. rewrite get_word_variations_run. fold T d idx. cbn [fst].
    apply verify_all_Raise_inv.
  - intros c e Hc He. rewrite get_word_variations_run. fold T d idx.
    cbn [fst].
    destruct (verify_all_Raise T d w _ c e Hc He)
      as (_ & _ & _ & e' & _ & _ & _ & Hrun).
    rewrite Hrun. by intros [].
  - intros Htotal. rewrite get_word_variations_run. fold T d idx. cbn [fst].
    destruct (verify_all_total T d w (examined T idx w) ∅ Htotal)
      as (vs & Hrun).
    exists vs. split; [done|]. intros c.
    rewrite (verify_all_Ok _ _ _ _ _ _ Hrun c). split.
    + intros [Hc|Hc]; [set_solver|done].
    + intros Hc. by right.
Qed.

(** ** A negative threshold *)

(** With [T <= -2] the partitioner returns no descriptor at all. *)
Lemma compute_partitions_negative (T L : Z) :
  T + 1 < 0 -> _compute_partitions T L = Ok [].
Proof.
  intros HT. rewrite compute_partitions_unfold by lia. cbv zeta.
  pose proof (Z.mod_neg_bound L (T + 1) HT) as Hr.
  pose proof (Z.mod_eq L (T + 1) ltac:(lia)) as Hmod.
  rewrite !range_nil by lia. reflexivity.
Qed.

Lemma examined_negative {char : Type} `{Countable char}
    (T : Z) (idx : index_of char) (w : list char) :
  T < 0 -> examined T idx w = [].
Proof.
  intros HT. unfold examined, _candidates_word_length_range.
  rewrite range_nil; [done|]. unfold len. lia.
Qed.

Lemma build_negative {char : Type} `{Countable char}
    (T : Z) (V : list (list char)) :
  T + 1 < 0 ->
  _build_inverted_index_by_length T V = Ok (∅ : index_of char).
Proof.
  intros HT.
  destruct (build_Ok T V ltac:(lia)) as (idx & -> & _ & Hdom).
  f_equal. apply map_empty. intros L.
  apply eq_None_not_Some. rewrite Hdom.
  intros (c & keys & _ & _ & Hkeys & Hne). apply Hne.
  unfold _generate_segments in Hkeys.
  rewrite compute_partitions_negative in Hkeys by done.
  by injection Hkeys as <-.
Qed.

(** C6 does not hold as stated: construction with the negative threshold
    [-2] is not rejected, it returns an index, an empty one. *)
Lemma negative_threshold_accepted :
  __init__ [[1; 2; 3]; [4; 5]]%nat (-2) distance =
    Ok {| _max_distance := -2;
          _distance_function := distance;
          _inverted_index_by_length := ∅ |} /\
  ~ (exists e, __init__ [[1; 2; 3]; [4; 5]]%nat (-2) distance = Raise e).
Proof.
  split; [reflexivity|]. intros (e & He). vm_compute in He. discriminate.
Qed.

(** C6, what holds. Construction does not validate the threshold.  With
    [T <= -2] it succeeds on every vocabulary and builds an empty index;
    with [T = -1] it succeeds, with an empty index, on the empty
    vocabulary and otherwise fails with the [ZeroDivisionError] of the
    partitioner; an index built with a negative threshold answers every
    query with the empty set. *)
Theorem negative_threshold_not_validated {char : Type} `{Countable char}
    (V : list (list char)) (T : Z)
    (d : list char -> list char -> result Z) :
  T < 0 ->
  (T <= -2 ->
   __init__ V T d =
     Ok {| _max_distance := T; _distance_function := d;
           _inverted_index_by_length := ∅ |}) /\
  (T = -1 ->
   __init__ V T d =
     match V with
     | [] => Ok {| _max_distance := T; _distance_function := d;
                   _inverted_index_by_length := ∅ |}
     | _ :: _ => Raise ZeroDivisionError
     end) /\
  (forall self w, __init__ V T d = Ok self ->
                  get_word_variations self w = (Ok ∅, self)).
Proof.
  intros HT. split; [|split].
  - intros HT2. unfold __init__. by rewrite build_negative by lia.
  - intros ->. unfold __init__. rewrite build_minus_one. by destruct V.
  - intros self w Hinit. rewrite get_word_variations_run.
    unfold __init__ in Hinit.
    destruct (_build_inverted_index_by_length T V); [|discriminate].
    injection Hinit as <-.
    cbn [_max_distance _distance_function _inverted_index_by_length].
    by rewrite examined_negative.
Qed.

(** The thresholds [-2] and [-1] on a vocabulary of two words. *)
Lemma negative_threshold_not_validated_witness :
  ((-2 <= -2 ->
    __init__ [[1; 2; 3]; [4; 5]]%nat (-2) distance =
      Ok {| _max_distance := -2; _distance_function := distance;
            _inverted_index_by_length := ∅ |}) /\
   (-2 = -1 ->
    __init__ [[1; 2; 3]; [4; 5]]%nat (-2) distance = Raise ZeroDivisionError) /\
   (forall self w,
      __init__ [[1; 2; 3]; [4; 5]]%nat (-2) distance = Ok self ->
      get_word_variations self w = (Ok ∅, self))) /\
  ((-1 <= -2 ->
    __init__ [[1; 2; 3]; [4; 5]]%nat (-1) distance =
      Ok {| _max_distance := -1; _distance_function := distance;
            _inverted_index_by_length := ∅ |}) /\
   (-1 = -1 ->
    __init__ [[1; 2; 3]; [4; 5]]%nat (-1) distance = Raise ZeroDivisionError) /\
   (forall self w,
      __init__ [[1; 2; 3]; [4; 5]]%nat (-1) distance = Ok self ->
      get_word_variations self w = (Ok ∅, self))).
Proof.
  split.
  - apply (negative_threshold_not_validated
             [[1; 2; 3]; [4; 5]]%nat (-2) distance). lia.
  - apply (negative_threshold_not_validated
             [[1; 2; 3]; [4; 5]]%nat (-1) distance). lia.
Defined.

(** A query that examines the candidate on which the distance function
    of [failing_example] fails. *)
Lemma distance_failure_propagates_witness :
  exists c' e',
    c' ∈ examined 1 example_index [4; 6]%nat /\
    failing_distance [4; 6]%nat c' = Raise e' /\
    (get_word_variations failing_example [4; 6]%nat).1 = Raise e'.
Proof.
  apply (distance_failure_propagates failing_example
           [4; 6]%nat [4; 5]%nat (RaisedError 7)).
  - vm_compute. left.
  - reflexivity.
Defined.

(** ** The edit distance *)

Section LevenshteinFacts.
Context {char : Type} `{EqDecision char}.
Implicit Types a b c : list char.
Local Open Scope nat_scope.

Lemma levenshtein_nil_r a : levenshtein a [] = length a.
Proof. by destruct a. Qed.

Lemma levenshtein_cons_cons x y a b :
  levenshtein (x :: a) (y :: b) =
    Nat.min (Nat.min (S (levenshtein a (y :: b))) (S (levenshtein (x :: a) b)))
            ((if decide (x = y) then 0 else 1) + levenshtein a b).
Proof. reflexivity. Qed.

(** One more character on either side costs at most one more edit. *)
Lemma levenshtein_cons_l x a b : levenshtein (x :: a) b <= S (levenshtein a b).
Proof.
  destruct b as [|y b].
  - rewrite !levenshtein_nil_r. cbn. lia.
  - rewrite levenshtein_cons_cons. lia.
Qed.

Lemma levenshtein_cons_r y a b : levenshtein a (y :: b) <= S (levenshtein a b).
Proof.
  destruct a as [|x a].
  - cbn. lia.
  - rewrite levenshtein_cons_cons. lia.
Qed.

(** The lengths of two words differ by at most their distance. *)
Lemma levenshtein_length a b :
  length a <= length b + levenshtein a b /\
  length b <= length a + levenshtein a b.
Proof.
  revert b. induction a as [|x a IHa]; intros b.
  - cbn. lia.
  - induction b as [|y b IHb].
    + rewrite levenshtein_nil_r. cbn. lia.
    + rewrite levenshtein_cons_cons.
      pose proof (IHa (y :: b)) as H1. pose proof (IHa b) as H2.
      cbn [length] in *. case_decide; lia.
Qed.

(** Only equal words are at distance zero. *)
Lemma levenshtein_zero a b : levenshtein a b = 0 -> a = b.
Proof.
  revert b. induction a as [|x a IHa]; intros b.
  - cbn. by destruct b.
  - destruct b as [|y b]; [done|].
    rewrite levenshtein_cons_cons. intros Hmin.
    case_decide as Hxy; [|lia]. subst y. f_equal. apply IHa. lia.
Qed.

(** An alignment of [a] with [b1 ++ b2] splits [a] in two parts, aligned
    with [b1] and with [b2]. *)
Lemma levenshtein_split a b1 b2 :
  exists a1 a2,
    a = a1 ++ a2 /\
    levenshtein a1 b1 + levenshtein a2 b2 <= levenshtein a (b1 ++ b2).
Proof.
  revert b1. induction a as [|x a IHa]; intros b1.
  - exists [], []. split; [done|]. cbn. rewrite length_app. lia.
  - induction b1 as [|y b1 IHb1].
    + exists [], (x :: a). split; [done|]. cbn [app levenshtein length]. lia.
    + rewrite <- app_comm_cons, levenshtein_cons_cons.
      destruct (IHa (y :: b1)) as (u1 & u2 & Hu & Hcost1).
      destruct IHb1 as (v1 & v2 & Hv & Hcost2).
      destruct (IHa b1) as (t1 & t2 & Ht & Hcost3).
      rewrite <- app_comm_cons in Hcost1.
      set (m1 := S (levenshtein a (y :: b1 ++ b2))) in *.
      set (m2 := S (levenshtein (x :: a) (b1 ++ b2))) in *.
      set (m3 := (if decide (x = y) then 0 else 1)
                 + levenshtein a (b1 ++ b2)) in *.
      destruct (Nat.min_spec (Nat.min m1 m2) m3) as [[_ ->]|[_ ->]].
      * destruct (Nat.min_spec m1 m2) as [[_ ->]|[_ ->]].
        -- exists (x :: u1), u2. split; [by rewrite Hu|].
           pose proof (levenshtein_cons_l x u1 (y :: b1)). unfold m1. lia.
        -- exists v1, v2. split; [done|].
           pose proof (levenshtein_cons_r y v1 b1). unfold m2. lia.
      * exists (x :: t1), t2. split; [by rewrite Ht|].
        rewrite levenshtein_cons_cons. unfold m3. lia.
Qed.

Lemma edit_script_nil_l b : edit_script [] b (length b).
Proof. induction b; cbn; by constructor. Qed.

Lemma edit_script_nil_r a : edit_script a [] (length a).
Proof. induction a; cbn; by constructor. Qed.

(** [levenshtein] is the length of a shortest edit script. *)
Lemma levenshtein_edit_script a b :
  edit_script a b (levenshtein a b) /\
  forall n, edit_script a b n -> levenshtein a b <= n.
Proof.
  split.
  - revert b. induction a as [|x a IHa]; intros b.
    + apply edit_script_nil_l.
    + induction b as [|y b IHb].
      * rewrite levenshtein_nil_r. apply edit_script_nil_r.
      * rewrite levenshtein_cons_cons.
        set (m1 := S (levenshtein a (y :: b))).
        set (m2 := S (levenshtein (x :: a) b)).
        set (m3 := (if decide (x = y) then 0 else 1) + levenshtein a b).
        destruct (Nat.min_spec (Nat.min m1 m2) m3) as [[_ ->]|[_ ->]].
        -- destruct (Nat.min_spec m1 m2) as [[_ ->]|[_ ->]].
           ++ apply edit_delete, IHa.
           ++ apply edit_insert, IHb.
        -- unfold m3. case_decide as Hxy.
           ++ subst y. apply edit_keep, IHa.
           ++ by apply edit_substitute.
  - intros n Hscript. induction Hscript as
      [|x a b n _ IH|y a b n _ IH|x y a b n Hxy _ IH|x a b n _ IH].
    + done.
    + pose proof (levenshtein_cons_l x a b). lia.
    + pose proof (levenshtein_cons_r y a b). lia.
    + rewrite levenshtein_cons_cons. case_decide; lia.
    + rewrite levenshtein_cons_cons. case_decide; [lia|done].
Qed.

End LevenshteinFacts.

(** ** The partition lemma *)

Section PartitionLemma.
Context {char : Type} `{EqDecision char}.
Implicit Types a w : list char.
Implicit Types segs us : list (list char).
Local Open Scope nat_scope.

Lemma sum_list_cons (e : nat) (es : list nat) :
  sum_list (e :: es) = e + sum_list es.
Proof. reflexivity. Qed.

(** An alignment of [a] with the concatenation of some segments cuts [a]
    into as many pieces, each aligned with its segment. *)
Lemma levenshtein_split_list segs seg a :
  exists u us,
    length us = length segs /\
    u ++ concat us = a /\
    levenshtein u seg + sum_list (zip_with levenshtein us segs)
      <= levenshtein a (seg ++ concat segs).
Proof.
  revert seg a. induction segs as [|s segs IH]; intros seg a.
  - exists a, []. cbn. rewrite !app_nil_r. split; [done|]. split; [done|]. lia.
  - destruct (levenshtein_split a seg (concat (s :: segs)))
      as (a1 & a2 & -> & Hcost).
    destruct (IH s a2) as (u & us & Hlen & <- & Hcost').
    exists a1, (u :: us). cbn [length concat zip_with] in *.
    rewrite sum_list_cons. split; [by rewrite Hlen|]. split; [done|]. lia.
Qed.

(** Fewer edits than segments: some segment has no edit, and the
    segments before it have exactly as many edits as they are. *)
Lemma pigeonhole (es : list nat) (k : nat) :
  k + sum_list es < length es ->
  exists i, es !! i = Some 0 /\ k + sum_list (take i es) = i.
Proof.
  revert k. induction es as [|e es IH]; intros k Hsum.
  - cbn in Hsum. lia.
  - cbn [length] in Hsum. rewrite sum_list_cons in Hsum.
    destruct (decide (k + e = 0)) as [Hz|Hnz].
    + exists 0. assert (e = 0) as -> by lia. split; [done|]. cbn. lia.
    + destruct (IH (k + e - 1) ltac:(lia)) as (i & Hi & Hpre).
      exists (S i). split; [done|]. cbn [take]. rewrite sum_list_cons. lia.
Qed.

(** Pieces and segments aligned pairwise differ in total length by at
    most the total number of edits. *)
Lemma concat_length_aligned us segs :
  length us = length segs ->
  length (concat us)
    <= length (concat segs) + sum_list (zip_with levenshtein us segs) /\
  length (concat segs)
    <= length (concat us) + sum_list (zip_with levenshtein us segs).
Proof.
  revert segs. induction us as [|u us IH]; intros [|s segs] Hlen;
    try discriminate.
  - cbn. lia.
  - cbn [concat zip_with]. rewrite sum_list_cons, !length_app.
    pose proof (levenshtein_length u s).
    destruct (IH segs ltac:(by injection Hlen)). lia.
Qed.

Lemma sum_list_take_drop (es : list nat) (i : nat) :
  es !! i = Some 0 ->
  sum_list es = sum_list (take i es) + sum_list (drop (S i) es).
Proof.
  intros Hi. rewrite <- (take_drop_middle es i 0 Hi) at 1.
  rewrite sum_list_with_app, sum_list_cons. lia.
Qed.

(** The partition lemma. When [w] is within [T] edits of the
    concatenation of [T + 1] segments, one of the segments, the [i]-th,
    occurs in [w] at a position [q] that is within [i] of the start [p] of
    the segment and, counted from the ends of the two words, within
    [T - i] of it. *)
Lemma partition_lemma (T : nat) segs w :
  length segs = S T ->
  levenshtein w (concat segs) <= T ->
  exists i seg q,
    i <= T /\ segs !! i = Some seg /\
    take (length seg) (drop q w) = seg /\
    q + length seg <= length w /\
    let p := length (concat (take i segs)) in
    q <= p + i /\ p <= q + i /\
    q + length (concat segs) <= p + length w + (T - i) /\
    p + length w <= q + length (concat segs) + (T - i).
Proof.
  intros Hlen Hdist. destruct segs as [|seg0 segs]; [discriminate|].
  destruct (levenshtein_split_list segs seg0 w)
    as (u0 & us & Hlen' & Hw & Hcost).
  set (us' := u0 :: us). set (segs' := seg0 :: segs).
  set (es := zip_with levenshtein us' segs').
  assert (Hes : length es = S T).
  { unfold es, us', segs'. rewrite length_zip_with. cbn [length] in *. lia. }
  assert (Hsum : sum_list es <= T).
  { unfold es, us', segs'. cbn [zip_with concat] in *.
    rewrite sum_list_cons. lia. }
  destruct (pigeonhole es 0 ltac:(lia)) as (i & Hi & Hpre).
  rewrite Nat.add_0_l in Hpre.
  pose proof (lookup_lt_Some _ _ _ Hi) as Hilt.
  pose proof (sum_list_take_drop es i Hi) as Hsplit.
  unfold es in Hi. apply lookup_zip_with_Some in Hi
    as (u & seg & Hzero & Hu & Hseg).
  symmetry in Hzero. apply levenshtein_zero in Hzero. subst u.
  assert (Hpre' :
    sum_list (zip_with levenshtein (take i us') (take i segs')) = i).
  { rewrite <- zip_with_take. exact Hpre. }
  assert (Hpost :
    sum_list (zip_with levenshtein (drop (S i) us') (drop (S i) segs'))
      <= T - i).
  { rewrite <- zip_with_drop. fold es. lia. }
  destruct (concat_length_aligned (take i us') (take i segs')) as [Hl1 Hl2].
  { rewrite !length_take. unfold us', segs'. cbn [length]. lia. }
  destruct (concat_length_aligned (drop (S i) us') (drop (S i) segs'))
    as [Hr1 Hr2].
  { rewrite !length_drop. unfold us', segs'. cbn [length]. lia. }
  assert (Hw' : w = concat (take i us') ++ seg ++ concat (drop (S i) us')).
  { rewrite <- Hw. change (u0 ++ concat us) with (concat us').
    rewrite <- (take_drop_middle us' i seg Hu) at 1.
    by rewrite concat_app, concat_cons. }
  assert (Hc' : concat segs' =
                concat (take i segs') ++ seg ++ concat (drop (S i) segs')).
  { rewrite <- (take_drop_middle segs' i seg Hseg) at 1.
    by rewrite concat_app, concat_cons. }
  assert (HLw : length w = length (concat (take i us')) + length seg
                           + length (concat (drop (S i) us'))).
  { rewrite Hw' at 1. rewrite !length_app. lia. }
  assert (HLc : length (concat segs') =
                length (concat (take i segs')) + length seg
                + length (concat (drop (S i) segs'))).
  { rewrite Hc' at 1. rewrite !length_app. lia. }
  exists i, seg, (length (concat (take i us'))).
  split; [lia|]. split; [done|]. split.
  { rewrite Hw' at 1. rewrite drop_app_length, take_app_length. done. }
  split; [lia|]. cbv zeta. lia.
Qed.

End PartitionLemma.

(** ** From descriptors to segments *)

Lemma contiguous_le (start : Z) (partitions : list (Z * Z * Z)) (stop : Z) :
  contiguous start partitions stop -> start <= stop.
Proof.
  revert start. induction partitions as [|[[i p] l] rest IH]; intros start.
  - cbn. lia.
  - cbn [contiguous]. intros (-> & Hl & Hrest). apply IH in Hrest. lia.
Qed.

(** The slices of a word along descriptors that tile it are its
    consecutive pieces: each descriptor starts after the pieces before
    it, and its slice has its length. *)
Lemma segments_of_contiguous {char : Type} (c : list char)
    (partitions : list (Z * Z * Z)) (start : Z) :
  0 <= start -> contiguous start partitions (len c) ->
  let segs :=
    (fun d => slice c (descriptor_start d)
                    (descriptor_start d + descriptor_length d))
      <$> partitions in
  concat segs = drop (Z.to_nat start) c /\
  forall i d, partitions !! i = Some d ->
    descriptor_start d = start + len (concat (take i segs)) /\
    0 <= descriptor_length d /\
    len (slice c (descriptor_start d)
               (descriptor_start d + descriptor_length d))
      = descriptor_length d.
Proof.
  revert start. induction partitions as [|[[i0 p] l] rest IH];
    intros start Hstart Hcont.
  - cbn in Hcont. subst start. cbn. split.
    + unfold len. rewrite Nat2Z.id. by rewrite drop_all.
    + intros i d Hd. by rewrite lookup_nil in Hd.
  - cbn [contiguous] in Hcont. destruct Hcont as (-> & Hl & Hrest).
    pose proof (contiguous_le _ _ _ Hrest) as Hle.
    destruct (IH (start + l) ltac:(lia) Hrest) as (Hconcat & Hlookup).
    cbv zeta in *. rewrite fmap_cons.
    set (segs := _ <$> rest) in *.
    unfold descriptor_start at 1 2, descriptor_length at 1. cbn [fst snd].
    assert (Hslice : slice c start (start + l) =
                     take (Z.to_nat l) (drop (Z.to_nat start) c)).
    { rewrite slice_take_drop by lia. do 2 f_equal. lia. }
    split.
    + rewrite concat_cons, Hconcat, Hslice.
      replace (Z.to_nat (start + l)) with (Z.to_nat start + Z.to_nat l)%nat
        by lia.
      rewrite <- drop_drop. apply take_drop.
    + intros [|i] d Hd.
      * cbn in Hd. injection Hd as <-.
        unfold descriptor_start, descriptor_length. cbn [fst snd take concat].
        split; [unfold len; cbn; lia|]. split; [done|].
        rewrite length_slice by lia. lia.
      * cbn [lookup list_lookup] in Hd.
        destruct (Hlookup i d Hd) as (Hs & Hl' & Hlen).
        split; [|done]. rewrite Hs. cbn [take]. rewrite concat_cons.
        pose proof (length_slice c start (start + l) ltac:(lia) ltac:(lia))
          as Hls.
        change (descriptor_start (i0, start, l)) with start.
        change (descriptor_length (i0, start, l)) with l.
        unfold len in *. rewrite length_app. lia.
Qed.

(** ** No false negatives *)

Section Recall.
Context {char : Type} `{Countable char}.

(** A word of the vocabulary within [T] edits of [w] is among the
    candidates that the query for [w] examines. *)
Lemma examined_complete (T : Z) (V : list (list char))
    (idx : index_of char) (w c : list char) :
  0 <= T ->
  _build_inverted_index_by_length T V = Ok idx ->
  c ∈ V -> Z.of_nat (levenshtein w c) <= T ->
  c ∈ examined T idx w.
Proof.
  intros HT Hbuild Hc Hdist.
  destruct (build_Ok T V ltac:(lia)) as (idx' & Hbuild' & Hset & Hdom).
  rewrite Hbuild in Hbuild'. injection Hbuild' as <-.
  destruct (compute_partitions_spec T (len c) ltac:(unfold len; lia) HT)
    as (partitions & Hparts & Hlen & Hidx & _ & _ & Hcont & _).
  destruct (segments_of_contiguous c partitions 0 ltac:(lia) Hcont)
    as (Hconcat & Hlookup).
  set (segs := (fun d => slice c (descriptor_start d)
                           (descriptor_start d + descriptor_length d))
                 <$> partitions) in *.
  change (drop (Z.to_nat 0) c) with c in Hconcat.
  destruct (partition_lemma (Z.to_nat T) segs w) as
    (i & seg & q & HiT & Hseg & Hocc & Hq & Hl1 & Hl2 & Hr1 & Hr2).
  { unfold segs. rewrite length_fmap, Hlen. lia. }
  { rewrite Hconcat. lia. }
  rewrite Hconcat in Hr1, Hr2.
  unfold segs in Hseg. apply list_lookup_fmap_Some in Hseg
    as (d & Hsegd & Hd).
  destruct (Hlookup i d Hd) as (Hstart & Hlen0 & Hlenseg).
  fold segs in Hstart. rewrite <- Hsegd in Hlenseg.
  assert (Hindex : descriptor_index d = Z.of_nat i).
  { assert (Hfi : (descriptor_index <$> partitions) !! i
                  = Some (descriptor_index d))
      by (by rewrite list_lookup_fmap, Hd).
    rewrite Hidx in Hfi. apply lookup_seqZ in Hfi. lia. }
  assert (Hkeys : _generate_segments T c =
    Ok ((fun '(i, start, length) => (i, slice c start (start + length)))
          <$> partitions)).
  { unfold _generate_segments. by rewrite Hparts. }
  assert (Hkey : (descriptor_index d, seg) ∈
    (fun '(i, start, length) => (i, slice c start (start + length)))
      <$> partitions).
  { apply list_elem_of_fmap. exists d. split.
    - rewrite Hsegd. by destruct d as [[? ?] ?].
    - by apply list_elem_of_lookup_2 in Hd. }
  pose proof (levenshtein_length w c) as [Hwc Hcw].
  unfold examined. apply list_elem_of_bind. exists (len c). split.
  2:{ unfold _candidates_word_length_range. apply elem_of_range.
      unfold len. lia. }
  assert (Hsome : is_Some (idx !! len c)).
  { apply Hdom. eexists c, _. split; [done|]. split; [done|].
    split; [exact Hkeys|]. intros Hnil.
    apply (f_equal length) in Hnil. rewrite length_fmap, Hlen in Hnil.
    cbn in Hnil. lia. }
  destruct Hsome as [sub ->]. rewrite Hparts.
  apply list_elem_of_bind. exists d. split;
    [|by apply list_elem_of_lookup_2 in Hd].
  apply list_elem_of_bind. exists seg. split.
  - apply elem_of_candidates_at, Hset. split; [done|]. split; [done|].
    exists ((fun '(i, start, length) => (i, slice c start (start + length)))
              <$> partitions).
    split; [exact Hkeys|exact Hkey].
  - rewrite <- Hocc at 1.
    replace (length seg) with (Z.to_nat (descriptor_length d))
      by (unfold len in Hlenseg; lia).
    replace q with (Z.to_nat (Z.of_nat q)) at 1 by lia.
    fold (descriptor_index d) (descriptor_start d) (descriptor_length d).
    assert (Hlseg : Z.of_nat (length seg) = descriptor_length d)
      by exact Hlenseg.
    apply substrings_selection_elem; unfold len in *; lia.
Qed.

End Recall.

(** C1. With the unit-cost edit distance as distance function and a
    threshold [T >= 0], construction succeeds and every query returns a
    set that holds every word of the vocabulary within [T] edits of the
    query word. *)
Theorem no_false_negatives {char : Type} `{Countable char}
    (V : list (list char)) (T : Z) (w c : list char) :
  0 <= T ->
  c ∈ V ->
  Z.of_nat (levenshtein w c) <= T ->
  exists self vs,
    __init__ V T distance = Ok self /\
    (get_word_variations self w).1 = Ok vs /\
    c ∈ vs.
Proof.
  intros HT Hc Hdist.
  destruct (build_Ok T V ltac:(lia)) as (idx & Hbuild & _).
  pose proof (examined_complete T V idx w c HT Hbuild Hc Hdist) as Hex.
  destruct (verify_all_total T distance w (examined T idx w) ∅) as (vs & Hrun).
  { intros c' _. exact I. }
  exists {| _max_distance := T; _distance_function := distance;
            _inverted_index_by_length := idx |}, vs.
  split; [unfold __init__; by rewrite Hbuild|].
  rewrite get_word_variations_run.
  cbn [fst _max_distance _distance_function _inverted_index_by_length].
  split; [exact Hrun|].
  apply (verify_all_Ok _ _ _ _ _ _ Hrun). right. split; [exact Hex|].
  exists (Z.of_nat (levenshtein w c)). split; [reflexivity|exact Hdist].
Qed.

(** A query one insertion away from a word of the vocabulary. *)
Lemma no_false_negatives_witness :
  exists self vs,
    __init__ [[1; 2; 3]; [4; 5]]%nat 1 distance = Ok self /\
    (get_word_variations self [1; 2; 3; 4]%nat).1 = Ok vs /\
    [1; 2; 3]%nat ∈ vs.
Proof.
  apply (no_false_negatives [[1; 2; 3]; [4; 5]]%nat 1
           [1; 2; 3; 4]%nat [1; 2; 3]%nat).
  - lia.
  - left.
  - vm_compute. discriminate.
Defined.

(** * Further properties of the code *)

(** ** The partitioner at the edges *)

(** X1. The partitioner raises exactly when the threshold is [-1], and
    then [ZeroDivisionError], whatever the length; with a threshold below
    [-1] it returns no descriptor. *)
Theorem compute_partitions_raises_iff (T L : Z) :
  (_compute_partitions T L = Raise ZeroDivisionError <-> T = -1) /\
  (is_Ok (_compute_partitions T L) <-> T <> -1) /\
  (T < -1 -> _compute_partitions T L = Ok []).
Proof.
  destruct (decide (T = -1)) as [->|HT].
  - split; [done|]. split; [|lia]. split; [|done]. by cbn.
  - rewrite compute_partitions_unfold by lia. cbv zeta.
    split; [split; [discriminate|done]|]. split; [done|].
    intros Hneg. rewrite <- (compute_partitions_unfold T L) by lia.
    apply compute_partitions_negative. lia.
Qed.

(** X2. A word shorter than the number of segments: for [0 <= L <= T] the
    first [T + 1 - L] descriptors are empty, all at offset 0, and the last
    [L] descriptors are the single characters of the word. *)
Theorem compute_partitions_short (T L : Z) :
  0 <= L <= T ->
  _compute_partitions T L =
    Ok (((fun i => (i, 0, 0)) <$> range 0 (T + 1 - L)) ++
        ((fun j => (T + 1 - L + j, j, 1)) <$> range 0 L)).
Proof.
  intros HL. rewrite compute_partitions_unfold by lia. cbv zeta.
  rewrite Z.div_small by lia. rewrite Z.mul_0_l, Z.sub_0_r.
  f_equal. f_equal.
  - apply list_fmap_ext. intros _ i _. by rewrite Z.mul_0_r.
  - apply list_fmap_ext. intros _ j _. f_equal. f_equal. lia.
Qed.

(** The empty word under threshold 2, and a word of two characters under
    threshold 3. *)
Lemma compute_partitions_short_witness :
  _compute_partitions 2 0 = Ok [(0, 0, 0); (1, 0, 0); (2, 0, 0)] /\
  _compute_partitions 3 2 = Ok [(0, 0, 0); (1, 0, 0); (2, 0, 1); (3, 1, 1)].
Proof.
  split.
  - apply (compute_partitions_short 2 0). lia.
  - apply (compute_partitions_short 3 2). lia.
Defined.

(** ** The segments of a word *)

(** X3. For [T >= 0] the segments of a word are [T + 1] keys, numbered
    [0 .. T] in order, and the concatenation of their texts is the word. *)
Theorem generate_segments_concat {char : Type} (T : Z) (w : list char) :
  0 <= T ->
  exists keys,
    _generate_segments T w = Ok keys /\
    length keys = Z.to_nat (T + 1) /\
    keys.*1 = seqZ 0 (T + 1) /\
    concat keys.*2 = w.
Proof.
  intros HT.
  destruct (compute_partitions_spec T (len w) ltac:(unfold len; lia) HT)
    as (partitions & Hparts & Hlen & Hidx & _ & _ & Hcont & _).
  destruct (segments_of_contiguous w partitions 0 ltac:(lia) Hcont)
    as (Hconcat & _).
  unfold _generate_segments. rewrite Hparts. eexists. split; [reflexivity|].
  split; [by rewrite length_fmap|]. split.
  - rewrite <- Hidx, <- list_fmap_compose. apply list_fmap_ext.
    by intros _ [[i p] l] _.
  - rewrite <- list_fmap_compose.
    rewrite (list_fmap_ext _
      (fun d => slice w (descriptor_start d)
                      (descriptor_start d + descriptor_length d)) partitions);
      [exact Hconcat|].
    by intros _ [[i p] l] _.
Qed.

(** A word of seven characters cut in three. *)
Lemma generate_segments_concat_witness :
  exists keys,
    _generate_segments 2 [1; 2; 3; 4; 5; 6; 7]%nat = Ok keys /\
    length keys = 3%nat /\
    keys.*1 = [0; 1; 2] /\
    concat keys.*2 = [1; 2; 3; 4; 5; 6; 7]%nat.
Proof. apply (generate_segments_concat 2 [1; 2; 3; 4; 5; 6; 7]%nat). lia. Defined.

(** ** The probes *)

(** X4. For a segment length [l >= 0] every probe is a substring of the
    query word of exactly [l] characters, taken at a position inside the
    word: no slice is clipped and none starts at a negative index. *)
Theorem substrings_selection_in_bounds {char : Type}
    (T : Z) (w : list char) (L' i p l : Z) (s : list char) :
  0 <= l ->
  s ∈ _substrings_selection T w L' i p l ->
  len s = l /\
  exists position : nat,
    Z.of_nat position + l <= len w /\
    s = take (Z.to_nat l) (drop position w).
Proof.
  intros Hl (position & Hpos & ->)%elem_of_substrings_selection.
  split; [rewrite length_slice by lia; lia|].
  exists (Z.to_nat position). split; [lia|].
  rewrite slice_take_drop by lia. do 2 f_equal. lia.
Qed.

(** The probe [[3; 4]] of the word [1 .. 7]. *)
Lemma substrings_selection_in_bounds_witness :
  len [3; 4]%nat = 2 /\
  exists position : nat,
    Z.of_nat position + 2 <= len [1; 2; 3; 4; 5; 6; 7]%nat /\
    [3; 4]%nat = take (Z.to_nat 2) (drop position [1; 2; 3; 4; 5; 6; 7]%nat).
Proof.
  apply (substrings_selection_in_bounds 2 [1; 2; 3; 4; 5; 6; 7]%nat 7 1 2 2).
  - lia.
  - vm_compute. right. left.
Defined.

(** X5. The window is empty for every descriptor when the candidate
    length differs from the length of the query word by more than the
    threshold: the selection filters the lengths by itself. *)
Theorem substrings_selection_length_filter {char : Type}
    (T : Z) (w : list char) (L' i p l : Z) :
  T < Z.abs (len w - L') ->
  _substrings_selection T w L' i p l = [].
Proof.
  intros Hfar. rewrite substrings_selection_eq. cbv zeta.
  rewrite seqZ_nil; [done|]. lia.
Qed.

(** A candidate length two above the length of the query word, under
    threshold 1. *)
Lemma substrings_selection_length_filter_witness :
  _substrings_selection 1 [1; 2; 3]%nat 5 0 0 2 = [].
Proof.
  apply (substrings_selection_length_filter 1 [1; 2; 3]%nat 5 0 0 2).
  vm_compute. reflexivity.
Defined.

(** ** The index that construction builds, as a user sees it *)

(** For [T >= 0] a word has at least one key. *)
Lemma generate_segments_keys {char : Type} (T : Z) (w : list char) :
  0 <= T ->
  exists keys, _generate_segments T w = Ok keys /\ keys <> [].
Proof.
  intros HT.
  destruct (compute_partitions_spec T (len w) ltac:(unfold len; lia) HT)
    as (partitions & Hparts & Hlen & _).
  unfold _generate_segments. rewrite Hparts. eexists. split; [reflexivity|].
  intros Hnil. apply (f_equal length) in Hnil.
  rewrite length_fmap, Hlen in Hnil. cbn in Hnil. lia.
Qed.

Section IndexContents.
Context {char : Type} `{Countable char}.

Lemma elem_of_lookup_set (idx : index_of char) (L : Z)
    (key : Z * list char) (c : list char) :
  c ∈ lookup_set idx L key <->
  exists sub candidates,
    idx !! L = Some sub /\ sub !! key = Some candidates /\ c ∈ candidates.
Proof.
  unfold lookup_set. split.
  - destruct (idx !! L) as [sub|] eqn:Hsub; cbn; [|set_solver].
    destruct (sub !! key) as [candidates|] eqn:Hkey; cbn; [|set_solver].
    intros Hc. by exists sub, candidates.
  - intros (sub & candidates & -> & Hkey & Hc). cbn. by rewrite Hkey.
Qed.

(** A loop keeps what each run of its body keeps. *)
Lemma for_in_state_invariant {S X A} (P : S -> Prop) (xs : list X)
    (body : A -> X -> M S A) (a : A) (s : S) :
  (forall a x s, P s -> P (body a x s).2) ->
  P s -> P (for_in xs body a s).2.
Proof.
  intros Hbody. revert a s. induction xs as [|x xs IH]; intros a s Hs.
  - exact Hs.
  - cbn [for_in]. unfold mbind at 1. pose proof (Hbody a x s Hs) as Hs'.
    destruct (body a x s) as [[a'|e] s']; [by apply IH|exact Hs'].
Qed.

Lemma getitem_add_no_empty_entry (L : Z) (key : Z * list char)
    (w : list char) (idx : index_of char) :
  no_empty_entry idx -> no_empty_entry (getitem_add L key w idx).2.
Proof.
  intros Hidx L' sub'. cbn [getitem_add snd].
  destruct (decide (L' = L)) as [->|HL].
  - rewrite lookup_insert_eq. intros [= <-]. split.
    + apply insert_non_empty.
    + intros key' candidates'. destruct (decide (key' = key)) as [->|Hkey].
      * rewrite lookup_insert_eq. intros [= <-]. set_solver.
      * rewrite lookup_insert_ne by done. intros Hkey'.
        destruct (idx !! L) as [sub|] eqn:Hsub; cbn in Hkey'.
        -- by apply (Hidx L sub Hsub) in Hkey'.
        -- by rewrite lookup_empty in Hkey'.
  - rewrite lookup_insert_ne by done. apply Hidx.
Qed.

Lemma build_loop_no_empty_entry (T : Z) (words : list (list char))
    (idx : index_of char) :
  no_empty_entry idx -> no_empty_entry (build_loop T words idx).2.
Proof.
  unfold build_loop. apply for_in_state_invariant.
  intros [] w idx' Hidx'. unfold mbind at 1, lift at 1.
  destruct (_generate_segments T w) as [keys|e]; [|exact Hidx'].
  revert Hidx'. apply for_in_state_invariant.
  intros [] key idx''. apply getitem_add_no_empty_entry.
Qed.

Lemma build_Ok_state (T : Z) (V : list (list char)) (idx : index_of char) :
  _build_inverted_index_by_length T V = Ok idx ->
  idx = (build_loop T V ∅).2.
Proof.
  unfold _build_inverted_index_by_length.
  destruct (build_loop T V ∅) as [[[]|e] idx']; [|discriminate].
  by intros [= <-].
Qed.

End IndexContents.

(** X6. An index that was built, with any threshold, holds no empty
    sub-dictionary and no empty candidate set. *)
Theorem built_index_has_no_empty_entry {char : Type} `{Countable char}
    (T : Z) (V : list (list char)) (idx : index_of char) :
  _build_inverted_index_by_length T V = Ok idx ->
  forall L sub, idx !! L = Some sub ->
    sub <> ∅ /\
    forall key candidates, sub !! key = Some candidates -> candidates <> ∅.
Proof.
  intros ->%build_Ok_state. apply build_loop_no_empty_entry.
  intros L sub. by rewrite lookup_empty.
Qed.

(** The index of two words under threshold 1. *)
Lemma built_index_has_no_empty_entry_witness :
  default ∅ (example_index !! 2) <> ∅ /\
  forall key candidates,
    default ∅ (example_index !! 2) !! key = Some candidates ->
    candidates <> ∅.
Proof.
  refine (built_index_has_no_empty_entry 1 [[1; 2; 3]; [4; 5]]%nat
            example_index _ 2 _ _).
  - vm_compute. reflexivity.
  - vm_compute. reflexivity.
Defined.

(** X7. What the index holds, for [T >= 0]: construction succeeds; a
    length has an entry exactly when a word of the vocabulary has that
    length; and a word is in the candidate set of the key [(i, s)] under
    the length [L] exactly when it is a word of the vocabulary of length
    [L] whose segment number [i] is [s]. *)
Theorem built_index_contents {char : Type} `{Countable char}
    (T : Z) (V : list (list char)) :
  0 <= T ->
  exists idx : index_of char,
    _build_inverted_index_by_length T V = Ok idx /\
    (forall L, is_Some (idx !! L) <-> exists c, c ∈ V /\ len c = L) /\
    (forall L i s c,
       (exists sub candidates,
          idx !! L = Some sub /\ sub !! (i, s) = Some candidates /\
          c ∈ candidates) <->
       c ∈ V /\ len c = L /\
       exists partitions p l,
         _compute_partitions T L = Ok partitions /\
         (i, p, l) ∈ partitions /\ s = slice c p (p + l)).
Proof.
  intros HT. destruct (build_Ok T V ltac:(lia)) as (idx & Hbuild & Hset & Hdom).
  exists idx. split; [exact Hbuild|]. split.
  - intros L. rewrite Hdom. split.
    + intros (c & keys & Hc & HL & _). by exists c.
    + intros (c & Hc & HL).
      destruct (generate_segments_keys T c HT) as (keys & Hkeys & Hne).
      by exists c, keys.
  - intros L i s c. rewrite <- elem_of_lookup_set, Hset.
    unfold _generate_segments. split.
    + intros (Hc & HL & keys & Hkeys & Hkey). split; [done|]. split; [done|].
      rewrite HL in Hkeys.
      destruct (_compute_partitions T L) as [partitions|]; [|discriminate].
      injection Hkeys as <-.
      apply list_elem_of_fmap in Hkey as ([[i' p] l] & [= -> ->] & Hd).
      by exists partitions, p, l.
    + intros (Hc & HL & partitions & p & l & Hparts & Hd & ->).
      split; [done|]. split; [done|]. rewrite HL, Hparts.
      eexists. split; [reflexivity|].
      apply list_elem_of_fmap. by exists (i, p, l).
Qed.

(** The index of two words under threshold 1. *)
Lemma built_index_contents_witness :
  exists idx : index_of nat,
    _build_inverted_index_by_length 1 [[1; 2; 3]; [4; 5]]%nat = Ok idx /\
    (forall L, is_Some (idx !! L) <->
               exists c, c ∈ [[1; 2; 3]; [4; 5]]%nat /\ len c = L) /\
    (forall L i s c,
       (exists sub candidates,
          idx !! L = Some sub /\ sub !! (i, s) = Some candidates /\
          c ∈ candidates) <->
       c ∈ [[1; 2; 3]; [4; 5]]%nat /\ len c = L /\
       exists partitions p l,
         _compute_partitions 1 L = Ok partitions /\
         (i, p, l) ∈ partitions /\ s = slice c p (p + l)).
Proof. apply (built_index_contents 1 [[1; 2; 3]; [4; 5]]%nat). lia. Defined.

Section IndexEquality.
Context {char : Type} `{Countable char}.

(** Two indexes without empty entries that have the same lengths and the
    same candidate sets are the same index. *)
Lemma index_eq (idx1 idx2 : index_of char) :
  no_empty_entry idx1 -> no_empty_entry idx2 ->
  (forall L, is_Some (idx1 !! L) <-> is_Some (idx2 !! L)) ->
  (forall L key, lookup_set idx1 L key = lookup_set idx2 L key) ->
  idx1 = idx2.
Proof.
  intros Hwf1 Hwf2 Hdom Hset. apply map_eq. intros L.
  destruct (idx1 !! L) as [sub1|] eqn:H1, (idx2 !! L) as [sub2|] eqn:H2.
  - f_equal. apply map_eq. intros key.
    pose proof (Hset L key) as Hkey. unfold lookup_set in Hkey.
    rewrite H1, H2 in Hkey. cbn in Hkey.
    destruct (Hwf1 L sub1 H1) as [_ Hne1], (Hwf2 L sub2 H2) as [_ Hne2].
    destruct (sub1 !! key) as [s1|] eqn:Hs1, (sub2 !! key) as [s2|] eqn:Hs2;
      cbn in Hkey.
    + by rewrite Hkey.
    + by destruct (Hne1 key s1 Hs1).
    + by destruct (Hne2 key s2 Hs2).
    + done.
  - destruct (Hdom L) as [Hd _]. rewrite H1, H2 in Hd.
    by destruct (Hd ltac:(eauto)).
  - destruct (Hdom L) as [_ Hd]. rewrite H1, H2 in Hd.
    by destruct (Hd ltac:(eauto)).
  - done.
Qed.

Lemma no_empty_entry_empty : no_empty_entry (∅ : index_of char).
Proof. intros L sub. by rewrite lookup_empty. Qed.

End IndexEquality.

(** X8. Construction depends on the vocabulary as a set: two vocabularies
    with the same words, in any order and with any repetitions, give the
    same index, or the same exception. *)
Theorem build_depends_on_word_set {char : Type} `{Countable char}
    (T : Z) (V1 V2 : list (list char)) :
  (forall x, x ∈ V1 <-> x ∈ V2) ->
  _build_inverted_index_by_length T V1 = _build_inverted_index_by_length T V2.
Proof.
  intros HV. destruct (decide (T + 1 = 0)) as [HT|HT].
  - replace T with (-1) by lia. rewrite !build_minus_one.
    destruct V1 as [|x1 V1], V2 as [|x2 V2]; [done| | |done].
    + destruct (HV x2) as [_ Hx]. specialize (Hx ltac:(left)).
      by apply elem_of_nil in Hx.
    + destruct (HV x1) as [Hx _]. specialize (Hx ltac:(left)).
      by apply elem_of_nil in Hx.
  - destruct (build_Ok T V1 HT) as (idx1 & Hb1 & Hset1 & Hdom1).
    destruct (build_Ok T V2 HT) as (idx2 & Hb2 & Hset2 & Hdom2).
    rewrite Hb1, Hb2. f_equal. apply index_eq.
    + rewrite (build_Ok_state _ _ _ Hb1).
      apply build_loop_no_empty_entry, no_empty_entry_empty.
    + rewrite (build_Ok_state _ _ _ Hb2).
      apply build_loop_no_empty_entry, no_empty_entry_empty.
    + intros L. rewrite Hdom1, Hdom2. split; intros (c & keys & Hc & Hrest);
        exists c, keys; (split; [by apply HV|done]).
    + intros L key. apply set_eq. intros c. rewrite Hset1, Hset2.
      by rewrite HV.
Qed.

(** A vocabulary, and the same words reordered with a repetition. *)
Lemma build_depends_on_word_set_witness :
  _build_inverted_index_by_length 1 [[1; 2; 3]; [4; 5]]%nat =
  _build_inverted_index_by_length 1 [[4; 5]; [1; 2; 3]; [4; 5]]%nat.
Proof.
  apply (build_depends_on_word_set 1
           [[1; 2; 3]; [4; 5]]%nat [[4; 5]; [1; 2; 3]; [4; 5]]%nat).
  intros x. rewrite !elem_of_cons, !elem_of_nil. tauto.
Defined.

(** X9. The empty vocabulary: construction succeeds with every threshold,
    even [-1], the index is empty, and every query returns the empty set
    without calling the distance function. *)
Theorem empty_vocabulary {char : Type} `{Countable char}
    (T : Z) (d : list char -> list char -> result Z) (w : list char) :
  __init__ [] T d =
    Ok {| _max_distance := T; _distance_function := d;
          _inverted_index_by_length := ∅ |} /\
  get_word_variations
    {| _max_distance := T; _distance_function := d;
       _inverted_index_by_length := ∅ |} w
  = (Ok ∅, {| _max_distance := T; _distance_function := d;
              _inverted_index_by_length := ∅ |}).
Proof.
  split; [reflexivity|].
  rewrite get_word_variations_run.
  cbn [fst _max_distance _distance_function _inverted_index_by_length].
  rewrite examined_nil_of_range_nil; [done|].
  intros L' _. apply lookup_empty.
Qed.

(** ** Exceptions of a query *)

(** X10. A query raises nothing of its own, whatever the threshold: an
    exception that comes out of it was raised by the distance function on
    a word of the vocabulary; so with a distance function that answers on
    the vocabulary every query returns a set. *)
Theorem query_raises_only_from_distance {char : Type} `{Countable char}
    (V : list (list char)) (T : Z)
    (d : list char -> list char -> result Z)
    (self : Passjoin char) (w : list char) :
  __init__ V T d = Ok self ->
  (forall e, (get_word_variations self w).1 = Raise e ->
             exists c, c ∈ V /\ d w c = Raise e) /\
  ((forall c, c ∈ V -> is_Ok (d w c)) ->
   is_Ok (get_word_variations self w).1).
Proof.
  intros Hinit. unfold __init__ in Hinit.
  destruct (_build_inverted_index_by_length T V) as [idx|] eqn:Hbuild;
    [|discriminate].
  injection Hinit as <-. rewrite get_word_variations_run.
  cbn [fst _max_distance _distance_function _inverted_index_by_length].
  assert (Hraise : forall e,
    verify_all T d w (examined T idx w) ∅ = Raise e ->
    exists c, c ∈ V /\ d w c = Raise e).
  { intros e (c & Hc & He)%verify_all_Raise_inv. exists c. split; [|done].
    apply examined_in_index in Hc as (L' & key & _ & _ & Hc).
    by apply (build_sound T V idx L' key). }
  split; [exact Hraise|]. intros Htotal.
  destruct (verify_all T d w (examined T idx w) ∅) as [vs|e]; [done|].
  destruct (Hraise e eq_refl) as (c & Hc & He).
  specialize (Htotal c Hc). by rewrite He in Htotal.
Qed.

(** The failing distance function on the index of two words. *)
Lemma query_raises_only_from_distance_witness :
  (forall e, (get_word_variations failing_example [4; 6]%nat).1 = Raise e ->
             exists c, c ∈ [[1; 2; 3]; [4; 5]]%nat /\
                       failing_distance [4; 6]%nat c = Raise e) /\
  ((forall c, c ∈ [[1; 2; 3]; [4; 5]]%nat ->
              is_Ok (failing_distance [4; 6]%nat c)) ->
   is_Ok (get_word_variations failing_example [4; 6]%nat).1).
Proof.
  apply (query_raises_only_from_distance
           [[1; 2; 3]; [4; 5]]%nat 1 failing_distance failing_example).
  vm_compute. reflexivity.
Defined.

(** ** What a query returns *)

Section Results.
Context {char : Type} `{Countable char}.

(** Whatever the threshold, an index that was built holds a word under
    its own length only. *)
Lemma build_length (T : Z) (V : list (list char)) (idx : index_of char)
    (L : Z) (key : Z * list char) (c : list char) :
  _build_inverted_index_by_length T V = Ok idx ->
  c ∈ lookup_set idx L key -> len c = L.
Proof.
  intros Hbuild Hc. destruct (decide (T + 1 = 0)) as [HT|HT].
  - replace T with (-1) in Hbuild by lia. rewrite build_minus_one in Hbuild.
    destruct V; [|discriminate]. injection Hbuild as <-.
    rewrite lookup_set_empty in Hc. set_solver.
  - destruct (build_Ok T V HT) as (idx' & Hbuild' & Hset & _).
    rewrite Hbuild in Hbuild'. injection Hbuild' as <-.
    by apply Hset in Hc as (_ & Hlen & _).
Qed.

(** The verification looks at the distance function on its candidates
    only. *)
Lemma verify_all_ext (T : Z) (d1 d2 : list char -> list char -> result Z)
    (w : list char) (cs : list (list char)) (v : gset (list char)) :
  (forall c, c ∈ cs -> d1 w c = d2 w c) ->
  verify_all T d1 w cs v = verify_all T d2 w cs v.
Proof.
  revert v. induction cs as [|c cs IH]; intros v Hagree; [done|].
  cbn [verify_all]. rewrite <- (Hagree c) by left.
  destruct (d1 w c); [|done]. apply IH. intros c' Hc'. apply Hagree.
  by right.
Qed.

(** The examined candidates of a built index are words of the vocabulary
    whose length is within the threshold of the length of the query
    word. *)
Lemma examined_in_vocabulary (T : Z) (V : list (list char))
    (idx : index_of char) (w c : list char) :
  _build_inverted_index_by_length T V = Ok idx ->
  c ∈ examined T idx w ->
  c ∈ V /\ Z.abs (len c - len w) <= T.
Proof.
  intros Hbuild (L' & key & HL' & _ & Hc)%examined_in_index.
  split; [by apply (build_sound T V idx L' key)|].
  apply (build_length T V idx L' key c Hbuild) in Hc.
  apply candidates_range_nonneg in HL'. lia.
Qed.

End Results.

(** X11. The length filter: whatever the distance function says, a word
    that a query returns differs in length from the query word by at most
    the threshold. *)
Theorem results_within_length_range {char : Type} `{Countable char}
    (V : list (list char)) (T : Z)
    (d : list char -> list char -> result Z)
    (self : Passjoin char) (w : list char) (vs : gset (list char))
    (c : list char) :
  __init__ V T d = Ok self ->
  (get_word_variations self w).1 = Ok vs ->
  c ∈ vs ->
  Z.abs (len c - len w) <= T.
Proof.
  intros Hinit Hrun Hc. unfold __init__ in Hinit.
  destruct (_build_inverted_index_by_length T V) as [idx|] eqn:Hbuild;
    [|discriminate].
  injection Hinit as <-. rewrite get_word_variations_run in Hrun.
  cbn [fst _max_distance _distance_function _inverted_index_by_length] in Hrun.
  apply (verify_all_Ok _ _ _ _ _ _ Hrun) in Hc as [Hc|(Hc & _)];
    [set_solver|].
  by apply (examined_in_vocabulary T V idx w c Hbuild).
Qed.

(** A distance function that accepts every pair still returns only words
    of a length near that of the query word. *)
Lemma results_within_length_range_witness :
  Z.abs (len [4; 5]%nat - len [4]%nat) <= 1.
Proof.
  eapply (results_within_length_range [[1; 2; 3]; [4; 5]]%nat 1
            (fun _ _ => Ok 0) _ [4]%nat _ [4; 5]%nat).
  - reflexivity.
  - vm_compute. reflexivity.
  - vm_compute. reflexivity.
Defined.

(** X12. The distance function is consulted only on pairs of the query
    word and a word of the vocabulary whose length is within the
    threshold: two distance functions that agree on those pairs give the
    same answer to the query, set or exception. *)
Theorem distance_consulted_on_near_words {char : Type} `{Countable char}
    (V : list (list char)) (T : Z)
    (d1 d2 : list char -> list char -> result Z)
    (self1 self2 : Passjoin char) (w : list char) :
  __init__ V T d1 = Ok self1 ->
  __init__ V T d2 = Ok self2 ->
  (forall c, c ∈ V -> Z.abs (len c - len w) <= T -> d1 w c = d2 w c) ->
  (get_word_variations self1 w).1 = (get_word_variations self2 w).1.
Proof.
  intros Hinit1 Hinit2 Hagree. unfold __init__ in Hinit1, Hinit2.
  destruct (_build_inverted_index_by_length T V) as [idx|] eqn:Hbuild;
    [|discriminate].
  injection Hinit1 as <-. injection Hinit2 as <-.
  rewrite !get_word_variations_run.
  cbn [fst _max_distance _distance_function _inverted_index_by_length].
  apply verify_all_ext. intros c Hc.
  apply (examined_in_vocabulary T V idx w c Hbuild) in Hc as (Hc & Hlen).
  by apply Hagree.
Qed.

(** The failing distance function and the edit distance agree on the
    words near a query word of three characters. *)
Lemma distance_consulted_on_near_words_witness :
  (get_word_variations failing_example [1; 2; 4; 5]%nat).1 =
  (get_word_variations
     {| _max_distance := 1; _distance_function := distance;
        _inverted_index_by_length := example_index |} [1; 2; 4; 5]%nat).1.
Proof.
  apply (distance_consulted_on_near_words [[1; 2; 3]; [4; 5]]%nat 1
           failing_distance distance).
  - vm_compute. reflexivity.
  - vm_compute. reflexivity.
  - intros c Hc Hlen. unfold failing_distance. case_decide as Hc'; [|done].
    subst c. vm_compute in Hlen. by destruct Hlen.
Defined.

(** X13. Recall with any distance function: for [T >= 0], a word of the
    vocabulary within [T] unit-cost edits of the query word is returned
    as soon as the distance function of the index accepts it, that is,
    the index never hides such a word from the final check. *)
Theorem recall_for_any_distance {char : Type} `{Countable char}
    (V : list (list char)) (T : Z)
    (d : list char -> list char -> result Z)
    (self : Passjoin char) (w : list char) (vs : gset (list char))
    (c : list char) (n : Z) :
  0 <= T ->
  __init__ V T d = Ok self ->
  (get_word_variations self w).1 = Ok vs ->
  c ∈ V ->
  Z.of_nat (levenshtein w c) <= T ->
  d w c = Ok n -> n <= T ->
  c ∈ vs.
Proof.
  intros HT Hinit Hrun Hc Hlev Hd Hn. unfold __init__ in Hinit.
  destruct (_build_inverted_index_by_length T V) as [idx|] eqn:Hbuild;
    [|discriminate].
  injection Hinit as <-. rewrite get_word_variations_run in Hrun.
  cbn [fst _max_distance _distance_function _inverted_index_by_length] in Hrun.
  apply (verify_all_Ok _ _ _ _ _ _ Hrun). right. split.
  - by apply (examined_complete T V idx w c).
  - by exists n.
Qed.

(** A distance function that accepts every pair, and a word one edit
    away. *)
Lemma recall_for_any_distance_witness :
  [1; 2; 3]%nat ∈
    ({[ [1; 2; 3]%nat ]} : gset (list nat)).
Proof.
  eapply (recall_for_any_distance [[1; 2; 3]; [4; 5]]%nat 1
            (fun _ _ => Ok 0) _ [1; 2; 3; 4]%nat _ [1; 2; 3]%nat 0).
  - lia.
  - reflexivity.
  - vm_compute. reflexivity.
  - left.
  - vm_compute. discriminate.
  - reflexivity.
  - lia.
Defined.

(** X14. With the edit distance and [T >= 0] a query returns exactly what
    a scan of the vocabulary returns: the set of the words of the
    vocabulary within [T] edits of the query word. *)
Theorem query_agrees_with_scan {char : Type} `{Countable char}
    (V : list (list char)) (T : Z) (w : list char) :
  0 <= T ->
  exists self,
    __init__ V T distance = Ok self /\
    (get_word_variations self w).1 =
      Ok (list_to_set
            (filter (fun c => Z.of_nat (levenshtein w c) <= T) V)).
Proof.
  intros HT.
  destruct (build_Ok T V ltac:(lia)) as (idx & Hbuild & _).
  destruct (verify_all_total T distance w (examined T idx w) ∅) as (vs & Hrun).
  { intros c' _. exact I. }
  exists {| _max_distance := T; _distance_function := distance;
            _inverted_index_by_length := idx |}.
  split; [unfold __init__; by rewrite Hbuild|].
  rewrite get_word_variations_run.
  cbn [fst _max_distance _distance_function _inverted_index_by_length].
  rewrite Hrun. f_equal. apply set_eq. intros c.
  rewrite (verify_all_Ok _ _ _ _ _ _ Hrun c), elem_of_list_to_set,
    list_elem_of_filter.
  split.
  - intros [Hc|(Hc & n & [= <-] & Hn)]; [set_solver|]. split; [done|].
    by apply (examined_in_vocabulary T V idx w c Hbuild).
  - intros (Hlev & Hc). right. split.
    + by apply (examined_complete T V idx w c).
    + by exists (Z.of_nat (levenshtein w c)).
Qed.

(** Two words, one of them one edit away from the query word. *)
Lemma query_agrees_with_scan_witness :
  exists self,
    __init__ [[1; 2; 3]; [4; 5]]%nat 1 distance = Ok self /\
    (get_word_variations self [1; 2; 3; 4]%nat).1 =
      Ok (list_to_set
            (filter (fun c => Z.of_nat (levenshtein [1; 2; 3; 4]%nat c) <= 1)
                    [[1; 2; 3]; [4; 5]]%nat)).
Proof.
  apply (query_agrees_with_scan [[1; 2; 3]; [4; 5]]%nat 1 [1; 2; 3; 4]%nat).
  lia.
Defined.

(** ** The threshold zero *)

Section ExactMatch.
Context {char : Type} `{Countable char}.

Lemma candidates_range_zero (w : list char) :
  _candidates_word_length_range 0 w = [len w].
Proof.
  unfold _candidates_word_length_range, range.
  replace (Z.max 0 (len w - 0)) with (len w) by (unfold len; lia).
  replace (len w + 0 + 1 - len w) with 1 by lia. reflexivity.
Qed.

Lemma compute_partitions_zero (L : Z) :
  _compute_partitions 0 L = Ok [(0, 0, L)].
Proof.
  rewrite compute_partitions_unfold by lia. cbv zeta.
  change (0 + 1) with 1. rewrite Z.div_1_r.
  replace (L - L * 1) with 0 by lia. reflexivity.
Qed.

Lemma slice_whole (c : list char) : slice c 0 (0 + len c) = c.
Proof.
  rewrite slice_take_drop by (unfold len; lia).
  replace (Z.to_nat (0 + len c - 0)) with (length c) by (unfold len; lia).
  change (Z.to_nat 0) with 0%nat. rewrite drop_0. apply firstn_all.
Qed.

Lemma generate_segments_zero (c : list char) :
  _generate_segments 0 c = Ok [(0, c)].
Proof.
  unfold _generate_segments. rewrite compute_partitions_zero. cbn [map].
  by rewrite slice_whole.
Qed.

Lemma substrings_selection_zero (w : list char) :
  _substrings_selection 0 w (len w) 0 0 (len w) = [w].
Proof.
  rewrite substrings_selection_eq. cbv zeta.
  replace (len w - len w) with 0 by lia.
  change (seqZ _ _) with [0]. cbn [fmap list_fmap].
  by rewrite slice_whole.
Qed.

(** With threshold zero the only candidate examined is the query word
    itself, when it is a word of the vocabulary. *)
Lemma examined_zero (V : list (list char)) (idx : index_of char)
    (w : list char) :
  _build_inverted_index_by_length 0 V = Ok idx ->
  examined 0 idx w = if decide (w ∈ V) then [w] else [].
Proof.
  intros Hbuild.
  destruct (build_Ok 0 V ltac:(lia)) as (idx' & Hbuild' & Hset & Hdom).
  rewrite Hbuild in Hbuild'. injection Hbuild' as <-.
  assert (Hlook : lookup_set idx (len w) (0, w)
                  = if decide (w ∈ V) then {[w]} else ∅).
  { apply set_eq. intros c. rewrite Hset. split.
    - intros (Hc & _ & keys & Hkeys & Hkey).
      rewrite generate_segments_zero in Hkeys. injection Hkeys as <-.
      apply list_elem_of_singleton in Hkey. injection Hkey as <-.
      rewrite decide_True by done. set_solver.
    - case_decide as Hw; [|set_solver].
      intros ->%elem_of_singleton. split; [done|]. split; [done|].
      exists [(0, w)]. split; [apply generate_segments_zero|].
      by apply list_elem_of_singleton. }
  unfold examined. rewrite candidates_range_zero, bind_singleton.
  destruct (idx !! len w) as [sub|] eqn:Hsub.
  - rewrite compute_partitions_zero, bind_singleton. cbn [fst snd].
    rewrite substrings_selection_zero, bind_singleton.
    rewrite candidates_at_lookup_set, Hlook.
    case_decide; [apply elements_singleton|apply elements_empty].
  - case_decide as Hw; [|done]. exfalso.
    apply eq_None_not_Some in Hsub. apply Hsub, Hdom.
    exists w, [(0, w)]. split; [done|]. split; [done|].
    split; [apply generate_segments_zero|done].
Qed.

End ExactMatch.

(** X15. With threshold zero the index is an exact-match lookup: a query
    calls the distance function at most once, on the query word paired
    with itself and only when it is a word of the vocabulary, and it
    returns that word or nothing. *)
Theorem exact_match_at_zero {char : Type} `{Countable char}
    (V : list (list char)) (d : list char -> list char -> result Z)
    (self : Passjoin char) (w : list char) :
  __init__ V 0 d = Ok self ->
  (get_word_variations self w).1 =
    if decide (w ∈ V) then
      match d w w with
      | Ok n => Ok (if decide (n <= 0) then {[w]} else ∅)
      | Raise e => Raise e
      end
    else Ok ∅.
Proof.
  intros Hinit. unfold __init__ in Hinit.
  destruct (_build_inverted_index_by_length 0 V) as [idx|] eqn:Hbuild;
    [|discriminate].
  injection Hinit as <-. rewrite get_word_variations_run.
  cbn [fst _max_distance _distance_function _inverted_index_by_length].
  rewrite (examined_zero V idx w Hbuild).
  case_decide; [|done]. cbn [verify_all].
  destruct (d w w) as [n|e]; [|done].
  case_decide; [|done]. by rewrite (left_id_L ∅ (∪)).
Qed.

(** A word of the vocabulary queried under threshold zero. *)
Lemma exact_match_at_zero_witness :
  (get_word_variations
     {| _max_distance := 0; _distance_function := distance;
        _inverted_index_by_length :=
          match _build_inverted_index_by_length 0 [[1; 2; 3]; [4; 5]]%nat with
          | Ok idx => idx
          | Raise _ => ∅
          end |} [4; 5]%nat).1 =
    if decide ([4; 5]%nat ∈ [[1; 2; 3]; [4; 5]]%nat) then
      match distance [4; 5]%nat [4; 5]%nat with
      | Ok n => Ok (if decide (n <= 0) then {[ [4; 5]%nat ]} else ∅)
      | Raise e => Raise e
      end
    else Ok ∅.
Proof.
  apply (exact_match_at_zero [[1; 2; 3]; [4; 5]]%nat distance).
  vm_compute. reflexivity.
Defined.

(** ** The number of lookups *)

Section Probes.
Context {char : Type} `{Countable char}.

Lemma bind_bind {A B C} (f : A -> list B) (g : B -> list C) (l : list A) :
  (l ≫= f) ≫= g = l ≫= (fun x => f x ≫= g).
Proof.
  induction l as [|x l IH]; [done|].
  by rewrite !bind_cons, bind_app, IH.
Qed.

Lemma length_bind_le {A B} (f : A -> list B) (l : list A) (n : nat) :
  (forall x, x ∈ l -> (length (f x) <= n)%nat) ->
  (length (l ≫= f) <= length l * n)%nat.
Proof.
  induction l as [|x l IH]; intros Hf; [cbn; lia|].
  rewrite bind_cons, length_app. cbn [length].
  pose proof (Hf x ltac:(left)).
  pose proof (IH (fun y Hy => Hf y ltac:(by right))). lia.
Qed.

(** The examined candidates are the candidate sets of the probes. *)
Lemma examined_probes (T : Z) (idx : index_of char) (w : list char) :
  examined T idx w =
    probes T idx w ≫= (fun probe => candidates_at idx probe.1 probe.2).
Proof.
  unfold examined, probes. rewrite bind_bind. apply bind_ext_in.
  intros L' _. destruct (idx !! L'); [|done].
  destruct (_compute_partitions T L') as [partitions|]; [|done].
  rewrite bind_bind. apply bind_ext_in. intros d _.
  rewrite bind_bind. apply bind_ext_in. intros substring _.
  by rewrite bind_singleton.
Qed.

Lemma length_probes (T : Z) (idx : index_of char) (w : list char) :
  0 <= T ->
  Z.of_nat (length (probes T idx w)) <= (2 * T + 1) * ((T + 1) * (T + 1)).
Proof.
  intros HT. unfold probes.
  set (per_length := fun L' : Z =>
    match idx !! L' with
    | None => []
    | Some _ =>
      match _compute_partitions T L' with
      | Raise _ => []
      | Ok partitions =>
        d ← partitions;
        substring ← _substrings_selection T w L' d.1.1 d.1.2 d.2;
        [(L', (d.1.1, substring))]
      end
    end).
  assert (Hrange : (length (_candidates_word_length_range T w)
                    <= Z.to_nat (2 * T + 1))%nat).
  { unfold _candidates_word_length_range. rewrite length_range.
    unfold len. lia. }
  assert (Hper : forall L', L' ∈ _candidates_word_length_range T w ->
    (length (per_length L') <= Z.to_nat (T + 1) * Z.to_nat (T + 1))%nat).
  { intros L' HL'. apply candidates_range_nonneg in HL' as (_ & HL' & _).
    unfold per_length. destruct (idx !! L'); [|cbn; lia].
    destruct (compute_partitions_spec T L' HL' HT)
      as (partitions & -> & Hparts & Hidx & _).
    rewrite <- Hparts at 1. apply length_bind_le. intros d Hd.
    assert (Hlen1 : forall l : list (list char),
      length (l ≫= (fun substring => [(L', (d.1.1, substring))]))
      = length l).
    { intros l. induction l as [|x l IH]; [done|].
      rewrite bind_cons. cbn. by rewrite IH. }
    rewrite Hlen1, substrings_selection_eq, length_fmap, length_seqZ.
    assert (Hin : descriptor_index d ∈ descriptor_index <$> partitions)
      by (apply list_elem_of_fmap; eauto).
    rewrite Hidx in Hin. apply elem_of_seqZ in Hin.
    unfold descriptor_index in Hin. lia. }
  pose proof (length_bind_le per_length _ _ Hper) as Hall.
  assert (Hmul : (length (_candidates_word_length_range T w)
                  * (Z.to_nat (T + 1) * Z.to_nat (T + 1))
                  <= Z.to_nat (2 * T + 1)
                     * (Z.to_nat (T + 1) * Z.to_nat (T + 1)))%nat)
    by (apply Nat.mul_le_mono_r, Hrange).
  nia.
Qed.

End Probes.

(** X16. The examined candidates are the members of the candidate sets
    that the query looks up, and for [T >= 0] a query makes at most
    [(2 T + 1) (T + 1)^2] lookups in the index, whatever the sizes of the
    vocabulary and of the words. *)
Theorem lookups_bound {char : Type} `{Countable char}
    (T : Z) (idx : index_of char) (w : list char) :
  0 <= T ->
  examined T idx w =
    probes T idx w ≫= (fun probe => candidates_at idx probe.1 probe.2) /\
  Z.of_nat (length (probes T idx w)) <= (2 * T + 1) * ((T + 1) * (T + 1)).
Proof.
  intros HT. split; [apply examined_probes|by apply length_probes].
Qed.

(** The index of two words and a query word of three characters. *)
Lemma lookups_bound_witness :
  examined 1 example_index [1; 2; 4]%nat =
    probes 1 example_index [1; 2; 4]%nat
      ≫= (fun probe => candidates_at example_index probe.1 probe.2) /\
  Z.of_nat (length (probes 1 example_index [1; 2; 4]%nat))
    <= (2 * 1 + 1) * ((1 + 1) * (1 + 1)).
Proof. apply (lookups_bound 1 example_index [1; 2; 4]%nat). lia. Defined.

(** ** The tests of the repository *)

Module Tests.
Local Open Scope string_scope.

Example levenshtein_kitten_sitting :
  levenshtein (word_of "kitten") (word_of "sitting") = 3%nat.
Proof. reflexivity. Qed.

Example test_addition :
  variations animals 1 "giraf" = Ok {[ word_of "girafe" ]} /\
  variations animals 1 "irafe" = Ok {[ word_of "girafe" ]} /\
  variations animals 1 "girfe" = Ok {[ word_of "girafe" ]} /\
  variations animals 1 "grfe" = Ok ∅.
Proof. repeat split; vm_compute; reflexivity. Qed.

Example test_suppression :
  variations animals 1 "girafes" = Ok {[ word_of "girafe" ]} /\
  variations animals 1 "ggirafe" = Ok {[ word_of "girafe" ]} /\
  variations animals 1 "giirafe" = Ok {[ word_of "girafe" ]} /\
  variations animals 1 "giraafes" = Ok ∅.
Proof. repeat split; vm_compute; reflexivity. Qed.

Example test_substitution :
  variations animals 1 "girafr" = Ok {[ word_of "girafe" ]} /\
  variations animals 1 "sirafe" = Ok {[ word_of "girafe" ]} /\
  variations animals 1 "girzfe" = Ok {[ word_of "girafe" ]} /\
  variations animals 1 "gorefe" = Ok ∅.
Proof. repeat split; vm_compute; reflexivity. Qed.

Example test_multi :
  variations animals 2 "irafr" = Ok {[ word_of "girafe" ]} /\
  variations animals 2 "giirofr" = Ok ∅.
Proof. repeat split; vm_compute; reflexivity. Qed.

Example test_special_cases :
  variations animals 0 "girafe" = Ok {[ word_of "girafe" ]} /\
  variations animals 0 "giraf" = Ok ∅ /\
  variations [] 1 "giraf" = Ok ∅ /\
  variations animals 1 "" = Ok ∅ /\
  variations (animals ++ ["a"]) 1 "" = Ok {[ word_of "a" ]}.
Proof. repeat split; vm_compute; reflexivity. Qed.

End Tests.
